(** * Geolocation resolution of wtl_service (src/webapp/geolocate.py,
    src/webapp/story_builder.py): a shallow embedding of the Cluster Grower,
    the Candidate Filter, the Location Resolver and core-location selection. *)

From Stdlib Require Import String List Bool ZArith Lia Permutation Sorted QArith.
From Stdlib Require Import Reals Lra.
Import ListNotations.
Open Scope Z_scope.
Set Warnings "-notation-for-abbreviation,-register-all".

(* ------------------------------------------------------------------ *)
(** ** Python values and errors *)

(** The exceptions the modelled code can raise. *)
Inductive py_error :=
  | IndexError
  | KeyError
  | ValueError
  | AttributeError
  | RequestException (body : string).

(** A computation that returns a value or raises. *)
Inductive res (A : Type) :=
  | Ok (a : A)
  | Err (e : py_error).
Arguments Ok {A} a.
Arguments Err {A} e.

Definition bind {A B} (r : res A) (f : A -> res B) : res B :=
  match r with Ok a => f a | Err e => Err e end.

Notation "'let*' x ':=' r 'in' k" := (bind r (fun x => k))
  (at level 200, x name, r at level 100, k at level 200).

(** Python's [l[i]] and [l[i] = v]: an index out of range raises. *)
Definition list_get {A} (i : nat) (l : list A) : res A :=
  match nth_error l i with Some a => Ok a | None => Err IndexError end.

Fixpoint list_set {A} (i : nat) (v : A) (l : list A) {struct l} : res (list A) :=
  match l, i with
  | [], _ => Err IndexError
  | _ :: l', O => Ok (v :: l')
  | a :: l', S i' => let* l'' := list_set i' v l' in Ok (a :: l'')
  end.

(** A Python dict with string keys, in insertion order. *)
Notation dict V := (list (string * V)) (only parsing).

Definition dict_mem {V} (k : string) (d : dict V) : bool :=
  existsb (fun kv => String.eqb (fst kv) k) d.

(** [d.pop(k)] without a default: raises [KeyError] on a missing key. *)
Fixpoint dict_pop {V} (k : string) (d : dict V) : res (dict V) :=
  match d with
  | [] => Err KeyError
  | (k', v) :: d' =>
      if String.eqb k' k then Ok d' else let* d'' := dict_pop k d' in Ok ((k', v) :: d'')
  end.

(** [d.update({k: v})]: replaces the value in place, or appends the key. *)
Fixpoint dict_set {V} (k : string) (v : V) (d : dict V) : dict V :=
  match d with
  | [] => [(k, v)]
  | (k', v') :: d' => if String.eqb k' k then (k, v) :: d' else (k', v') :: dict_set k v d'
  end.

Definition keys {V} (d : dict V) : list string := map fst d.

(* ------------------------------------------------------------------ *)
(** ** Geocodings *)

Definition name := string.

(** A value of a raw address component: a string, or any other JSON value. *)
Inductive cval := CStr (s : string) | COther.

(** A geocoding candidate.  Coordinates are exact numbers (fixed units).
    Every candidate a geocoder returns carries ['lat'] and ['lon'];
    ['boundingbox'] is optional (minlon, minlat, maxlon, maxlat), and so is
    ['components'], the raw address fields, removed by the Candidate Filter. *)
Record geocoding := mkGeocoding {
  lat : Z;
  lon : Z;
  boundingbox : option (Z * Z * Z * Z);
  components : option (dict cval)
}.

Notation cluster := (dict geocoding) (only parsing).

(** shapely geometries: [geometry.box( *bbox)], or [geometry.Point(lon, lat)]
    when there is no bounding box ([*None] raises TypeError). *)
Inductive extent :=
  | Point (x y : Z)
  | Box (minx miny maxx maxy : Z).

Definition extent_of (g : geocoding) : extent :=
  match boundingbox g with
  | Some (a, b, c, d) => Box a b c d
  | None => Point (lon g) (lat g)
  end.

Definition bounds (e : extent) : Z * Z * Z * Z :=
  match e with
  | Point x y => (x, y, x, y)
  | Box a b c d => (Z.min a c, Z.min b d, Z.max a c, Z.max b d)
  end.

(** [source.intersection(target).bounds] is a non-empty tuple exactly when
    the two closed extents share a point. *)
Definition intersects (e1 e2 : extent) : bool :=
  let '(a1, b1, c1, d1) := bounds e1 in
  let '(a2, b2, c2, d2) := bounds e2 in
  (Z.max a1 a2 <=? Z.min c1 c2) && (Z.max b1 b2 <=? Z.min d1 d2).

(** numpy: [(lat, lon) in coords] for an array [coords] of shape (n, 2) is
    [(coords == (lat, lon)).any()]: true when some row agrees with the pair
    in at least one of the two columns. *)
Definition np_contains (p : Z * Z) (coords : list (Z * Z)) : bool :=
  existsb (fun q => (fst q =? fst p) || (snd q =? snd p)) coords.

Section Grower.

(** [geopy.distance.great_circle(p, q).kilometers <= max_dist] for the
    configured [max_dist]; the same neighbourhood is the haversine [eps]
    radius of DBSCAN ([max_radians = max_dist / EARTH_RADIUS]). *)
Variable within_max_dist : Z * Z -> Z * Z -> bool.

Definition coords_of (g : geocoding) : Z * Z := (lat g, lon g).

(** [coords_from_locations]: the lat/lon of every value; raises on none. *)
Definition coords_list (locations : dict geocoding) : list (Z * Z) :=
  map (fun kv => coords_of (snd kv)) locations.

Definition coords_from_locations (locations : dict geocoding) : res (list (Z * Z)) :=
  match coords_list locations with
  | [] => Err ValueError
  | cs => Ok cs
  end.

(** [locations_from_coords]: the items whose (lat, lon) is [in] the array. *)
Definition locations_from_coords (coords : list (Z * Z)) (locations : dict geocoding)
  : dict geocoding :=
  filter (fun kv => np_contains (coords_of (snd kv)) coords) locations.

(** DBSCAN with [min_samples = 1] (the default [min_size]): every point is a
    core point, so the clusters are the connected components of the
    neighbourhood graph, labelled in the order of their first point; no
    point is an outlier.  Points are added in input order; a point joins
    (and merges) every component it neighbours, kept at the position of the
    first one. *)
Definition touches (p : Z * Z) (c : list (Z * Z)) : bool :=
  existsb (within_max_dist p) c.

Fixpoint dbscan_insert (p : Z * Z) (cs : list (list (Z * Z))) : list (list (Z * Z)) :=
  match cs with
  | [] => [[p]]
  | c :: cs' =>
      if touches p c
      then ((c ++ p :: concat (filter (touches p) cs'))%list) :: filter (fun c' => negb (touches p c')) cs'
      else c :: dbscan_insert p cs'
  end.

Definition dbscan (coords : list (Z * Z)) : list (list (Z * Z)) :=
  fold_left (fun cs p => dbscan_insert p cs) coords [].

(** [GrowGeoCluster.seed]. *)
Definition seed (locations : dict geocoding) : res (list cluster) :=
  let* coords := coords_from_locations locations in
  Ok (map (fun cc => locations_from_coords cc locations) (dbscan coords)).

(** The attributes [grow] keeps on [self]. *)
Record gstate := mkG {
  clusters : list cluster;
  cluster_lens : list Z;
  gain : Z;
  cur_name : name;
  idx : nat
}.

Definition measure_gain (lens : list Z) : Z := fold_right (fun l acc => l * l + acc) 0 lens.

Definition set_gain (st : gstate) : gstate :=
  let lens := map (fun c => Z.of_nat (length c)) (clusters st) in
  mkG (clusters st) lens (measure_gain lens) (cur_name st) (idx st).

Fixpoint find_idx (n : nat) (nm : name) (cs : list cluster) : res nat :=
  match cs with
  | [] => Err IndexError
  | c :: cs' => if dict_mem nm c then Ok n else find_idx (S n) nm cs'
  end.

(** [_get_idx]: [[n for n,c in enumerate(self.clusters) if name in c][0]]. *)
Definition get_idx (nm : name) (cs : list cluster) : res nat := find_idx 0 nm cs.

Definition trial_lens (st : gstate) (trial_idx : nat) : res (list Z) :=
  let* lt := list_get trial_idx (cluster_lens st) in
  let* l1 := list_set trial_idx (lt + 1) (cluster_lens st) in
  let* li := list_get (idx st) l1 in
  list_set (idx st) (li - 1) l1.

Definition update (st : gstate) (g : geocoding) (trial_idx : nat) : res gstate :=
  let nm := cur_name st in
  let* c := list_get (idx st) (clusters st) in
  let* c' := dict_pop nm c in
  let* cs := list_set (idx st) c' (clusters st) in
  let* ct := list_get trial_idx cs in
  let* cs' := list_set trial_idx (dict_set nm g ct) cs in
  Ok (set_gain (mkG cs' (cluster_lens st) (gain st) nm trial_idx)).

Definition check_intersects (g : geocoding) (c : cluster) : bool :=
  existsb (fun kv => intersects (extent_of g) (extent_of (snd kv))) c.

(** [_check_near]; [coords_from_locations(cluster)] does not raise here,
    since it is only called on nonempty clusters. *)
Definition check_near (g : geocoding) (c : cluster) : bool :=
  existsb (within_max_dist (lat g, lon g)) (coords_list c).

Fixpoint match_from (n i : nat) (g : geocoding) (cs : list cluster) : option nat :=
  match cs with
  | [] => None
  | c :: cs' =>
      if negb (Nat.eqb n i) && (0 <? length c)%nat && (check_intersects g c || check_near g c)
      then Some n else match_from (S n) i g cs'
  end.

Definition match_to_cluster (st : gstate) (g : geocoding) : option nat :=
  match_from 0 (idx st) g (clusters st).

Definition try_move (st : gstate) (g : geocoding) : res gstate :=
  match match_to_cluster st g with
  | None => Ok st
  | Some t =>
      let* tl := trial_lens st t in
      if measure_gain tl >? gain st then update st g t else Ok st
  end.

Fixpoint try_all (st : gstate) (gs : list geocoding) : res gstate :=
  match gs with
  | [] => Ok st
  | g :: gs' => let* st' := try_move st g in try_all st' gs'
  end.

(** One pass of the [while True] body, after the shuffle and [_set_gain]. *)
Fixpoint grow_pass (st : gstate) (cands : list (name * list geocoding)) : res gstate :=
  match cands with
  | [] => Ok st
  | (nm, data) :: rest =>
      let* i := get_idx nm (clusters st) in
      let* st' := try_all (mkG (clusters st) (cluster_lens st) (gain st) nm i) data in
      grow_pass st' rest
  end.

(** The loop of [grow]; [shuffle k] is [random.shuffle] at pass [k];
    [None] when the fuel runs out. *)
Fixpoint grow_loop (fuel k : nat) (shuffle : nat -> list cluster -> list cluster)
    (cands : list (name * list geocoding)) (st : gstate) : option (res gstate) :=
  match fuel with
  | O => None
  | S fuel' =>
      let st1 := set_gain (mkG (shuffle k (clusters st)) (cluster_lens st) (gain st)
                               (cur_name st) (idx st)) in
      let gain0 := gain st1 in
      match grow_pass st1 cands with
      | Err e => Some (Err e)
      | Ok st2 => if gain st2 =? gain0 then Some (Ok st2)
                  else grow_loop fuel' (S k) shuffle cands st2
      end
  end.

Definition nonempty (c : cluster) : bool := (0 <? length c)%nat.

(** [GrowGeoCluster.grow]; [json.loads(json.dumps(clusters))] is a copy. *)
Definition grow (fuel : nat) (shuffle : nat -> list cluster -> list cluster)
    (cs : list cluster) (cands : list (name * list geocoding)) : option (res (list cluster)) :=
  match grow_loop fuel 0 shuffle cands (mkG cs [] 0 EmptyString 0) with
  | None => None
  | Some (Err e) => Some (Err e)
  | Some (Ok st) => Some (Ok (filter nonempty (clusters st)))
  end.

(** [{name: locs[0] for name, locs in candidates.items()}]. *)
Fixpoint init_locations (cands : list (name * list geocoding)) : res (dict geocoding) :=
  match cands with
  | [] => Ok []
  | (nm, locs) :: rest =>
      match locs with
      | [] => Err IndexError
      | g :: _ => let* rest' := init_locations rest in Ok ((nm, g) :: rest')
      end
  end.

(** [GrowGeoCluster.__call__]. *)
Definition grow_geo_cluster (fuel : nat) (shuffle : nat -> list cluster -> list cluster)
    (cands : list (name * list geocoding)) : option (res (list cluster)) :=
  match init_locations cands with
  | Err e => Some (Err e)
  | Ok init =>
      match seed init with
      | Err e => Some (Err e)
      | Ok seeds => grow fuel shuffle seeds cands
      end
  end.

End Grower.

(** A concrete neighbourhood test, used to instantiate the geometry at
    concrete inputs: both coordinate differences at most [r]. *)
Definition box_within (r : Z) (p q : Z * Z) : bool :=
  (Z.abs (fst p - fst q) <=? r) && (Z.abs (snd p - snd q) <=? r).

(** Three geocodings on one parallel and one meridian, pairwise thousands
    of kilometres apart. *)
Definition geo_a : geocoding := mkGeocoding 10 20 None None.
Definition geo_b : geocoding := mkGeocoding 10 80 None None.
Definition geo_c : geocoding := mkGeocoding 50 80 None None.

Definition cands_abc : list (name * list geocoding) :=
  [("A"%string, [geo_a]); ("B"%string, [geo_b]); ("C"%string, [geo_c])].

Definition far_apart (w : Z * Z -> Z * Z -> bool) : Prop :=
  forall p q, In p [(10, 20); (10, 80); (50, 80)] -> In q [(10, 20); (10, 80); (50, 80)] ->
  p <> q -> w p q = false.

Definition id_shuffle (k : nat) (l : list cluster) : list cluster := l.
Definition rev_shuffle (k : nat) (l : list cluster) : list cluster := rev l.

Definition count_containing (nm : name) (cs : list cluster) : nat :=
  length (filter (dict_mem nm) cs).

Definition init_ab : dict geocoding := [("A"%string, geo_a); ("B"%string, geo_b)].
Definition init_abc : dict geocoding :=
  [("A"%string, geo_a); ("B"%string, geo_b); ("C"%string, geo_c)].

Definition cluster_sizes (cs : list cluster) : list Z :=
  map (fun c => Z.of_nat (length c)) cs.

(* ------------------------------------------------------------------ *)
(** ** The Cluster Grower at concrete inputs *)

Ltac far_eval w H :=
  repeat (vm_compute; match goal with
                      | |- context [w ?p ?q] => rewrite (H p q) by (simpl; intuition congruence)
                      end).

Lemma far_apart_box_within : far_apart (box_within 1).
Proof.
  intros p q Hp Hq Hne; simpl in Hp, Hq.
  destruct Hp as [<-|[<-|[<-|[]]]]; destruct Hq as [<-|[<-|[<-|[]]]];
    solve [exfalso; apply Hne; reflexivity | reflexivity].
Qed.

(** C3: seeding [{A: (10, 20), B: (10, 80)}] (two places on one parallel,
    6500 km apart) gives two clusters, and place A is in both: the numpy
    membership test [(lat, lon) in coords] accepts B into A's cluster (equal
    latitude) and A into B's. *)
Theorem seed_puts_place_in_two_clusters (w : Z * Z -> Z * Z -> bool) (H : far_apart w) :
  exists seeds, seed w init_ab = Ok seeds /\ length seeds = 2%nat /\
    count_containing "A"%string seeds = 2%nat.
Proof. eexists; split; [far_eval w H; reflexivity | vm_compute; split; reflexivity]. Qed.

Lemma seed_puts_place_in_two_clusters_witness :
  far_apart (box_within 1) /\
  exists seeds, seed (box_within 1) init_ab = Ok seeds /\ length seeds = 2%nat /\
    count_containing "A"%string seeds = 2%nat.
Proof.
  split; [apply far_apart_box_within|].
  apply (seed_puts_place_in_two_clusters (box_within 1)); apply far_apart_box_within.
Defined.

(** C1: in the seeded state of [{A: (10, 20), B: (10, 80)}] (sizes 2 and 2,
    objective 8), the trial move of A to the other cluster is accepted (the
    predicted objective is 10) but, A being already there, the objective
    after the move is 5: an accepted move lowers the objective. *)
Theorem accepted_move_lowers_gain (w : Z * Z -> Z * Z -> bool) (H : far_apart w) :
  exists seeds st',
    seed w init_ab = Ok seeds /\ get_idx "A"%string seeds = Ok 0%nat /\
    let st := set_gain (mkG seeds [] 0 "A"%string 0) in
    gain st = 8 /\ match_to_cluster w st geo_a = Some 1%nat /\
    try_move w st geo_a = Ok st' /\ clusters st' <> clusters st /\ gain st' = 5.
Proof.
  do 2 eexists; split; [far_eval w H; reflexivity|].
  split; [reflexivity|]. far_eval w H. split; [reflexivity|].
  split; [reflexivity|]. split; [reflexivity|]. split; [discriminate | reflexivity].
Qed.

Lemma accepted_move_lowers_gain_witness :
  far_apart (box_within 1) /\
  exists seeds st',
    seed (box_within 1) init_ab = Ok seeds /\ get_idx "A"%string seeds = Ok 0%nat /\
    let st := set_gain (mkG seeds [] 0 "A"%string 0) in
    gain st = 8 /\ match_to_cluster (box_within 1) st geo_a = Some 1%nat /\
    try_move (box_within 1) st geo_a = Ok st' /\ clusters st' <> clusters st /\ gain st' = 5.
Proof.
  split; [apply far_apart_box_within|].
  apply (accepted_move_lowers_gain (box_within 1)); apply far_apart_box_within.
Defined.

(** C2: seeding the three places [{A: (10, 20), B: (10, 80), C: (50, 80)}]
    gives clusters of sizes 2, 3 and 2 (B is in all three, A and C in two):
    the objective is 17, above (number of places)^2 = 9; the grower still
    stops on this input. *)
Theorem seeded_gain_exceeds_square (w : Z * Z -> Z * Z -> bool) (H : far_apart w) :
  exists seeds out,
    seed w init_abc = Ok seeds /\ cluster_sizes seeds = [2; 3; 2] /\
    measure_gain (cluster_sizes seeds) = 17 /\
    measure_gain (cluster_sizes seeds) > Z.of_nat (length cands_abc) ^ 2 /\
    grow_geo_cluster w 10 id_shuffle cands_abc = Some (Ok out).
Proof.
  do 2 eexists; split; [far_eval w H; reflexivity|].
  split; [reflexivity|]. split; [reflexivity|]. split; [vm_compute; reflexivity|].
  far_eval w H; reflexivity.
Qed.

Lemma seeded_gain_exceeds_square_witness :
  far_apart (box_within 1) /\
  exists seeds out,
    seed (box_within 1) init_abc = Ok seeds /\ cluster_sizes seeds = [2; 3; 2] /\
    measure_gain (cluster_sizes seeds) = 17 /\
    measure_gain (cluster_sizes seeds) > Z.of_nat (length cands_abc) ^ 2 /\
    grow_geo_cluster (box_within 1) 10 id_shuffle cands_abc = Some (Ok out).
Proof.
  split; [apply far_apart_box_within|].
  apply (seeded_gain_exceeds_square (box_within 1)); apply far_apart_box_within.
Defined.

(** C7: the grower on [{A: [(10, 20)], B: [(10, 80)], C: [(50, 80)]}]
    (identity shuffles) converges to the clusters [{A, B, C}; {B, C}];
    re-running [grow] on them, each place with its resolved location as only
    candidate, under a shuffle that reverses the clusters, moves B and C and
    returns the single cluster [{A, B, C}], which is not the converged
    partition. *)
Theorem regrow_converged_moves (w : Z * Z -> Z * Z -> bool) (H : far_apart w) :
  exists out out',
    grow_geo_cluster w 10 id_shuffle cands_abc = Some (Ok out) /\
    map keys out = [["A"; "B"; "C"]; ["B"; "C"]]%string /\
    grow w 10 rev_shuffle out cands_abc = Some (Ok out') /\
    map keys out' = [["A"; "B"; "C"]]%string /\
    ~ Permutation out out'.
Proof.
  do 2 eexists; split; [far_eval w H; reflexivity|].
  split; [reflexivity|]. split; [far_eval w H; reflexivity|].
  split; [reflexivity|].
  intro Hp; apply Permutation_length in Hp; discriminate.
Qed.

Lemma regrow_converged_moves_witness :
  far_apart (box_within 1) /\
  exists out out',
    grow_geo_cluster (box_within 1) 10 id_shuffle cands_abc = Some (Ok out) /\
    map keys out = [["A"; "B"; "C"]; ["B"; "C"]]%string /\
    grow (box_within 1) 10 rev_shuffle out cands_abc = Some (Ok out') /\
    map keys out' = [["A"; "B"; "C"]]%string /\
    ~ Permutation out out'.
Proof.
  split; [apply far_apart_box_within|].
  apply (regrow_converged_moves (box_within 1)); apply far_apart_box_within.
Defined.

(* ------------------------------------------------------------------ *)
(** ** Facts about the grower's state updates *)

Fixpoint zsum {A} (f : A -> Z) (l : list A) : Z :=
  match l with [] => 0 | a :: l' => f a + zsum f l' end.

Definition count_nonempty (cs : list cluster) : nat := length (filter nonempty cs).

Definition nonempty_ind (c : cluster) : Z := if nonempty c then 1 else 0.

Ltac peel H :=
  repeat match type of H with
  | bind ?r _ = _ =>
      let E := fresh "E" in destruct r eqn:E; cbn [bind] in H; [|discriminate H]
  end.

Lemma zsum_perm {A} (f : A -> Z) l l' : Permutation l l' -> zsum f l = zsum f l'.
Proof. induction 1; cbn; lia. Qed.


Lemma count_nonempty_zsum cs : Z.of_nat (count_nonempty cs) = zsum nonempty_ind cs.
Proof.
  induction cs as [|c cs IH]; [reflexivity|].
  unfold count_nonempty in *; cbn [filter zsum]. unfold nonempty_ind at 1.
  destruct (nonempty c); cbn [length]; lia.
Qed.

Lemma list_get_spec {A} i (l : list A) a : list_get i l = Ok a -> nth_error l i = Some a.
Proof. unfold list_get; destruct (nth_error l i); congruence. Qed.

Lemma list_set_spec {A} i (v : A) l l' :
  list_set i v l = Ok l' ->
  length l' = length l /\ (i < length l)%nat /\
  forall j, nth_error l' j = if Nat.eqb j i then Some v else nth_error l j.
Proof.
  revert i l'; induction l as [|a l IH]; intros i l' H; [cbn in H; discriminate H|].
  destruct i as [|i]; cbn in H.
  - injection H as <-; split; [reflexivity|]; split; [cbn; lia|].
    intros [|j]; reflexivity.
  - peel H. injection H as <-. destruct (IH _ _ E) as (Hl & Hi & Hj).
    split; [cbn; congruence|]; split; [cbn; lia|].
    intros [|j]; [reflexivity|]; cbn; apply Hj.
Qed.

Lemma zsum_list_set {A} (f : A -> Z) i v l l' :
  list_set i v l = Ok l' ->
  exists old, nth_error l i = Some old /\ zsum f l' + f old = zsum f l + f v.
Proof.
  revert i l'; induction l as [|a l IH]; intros i l' H; [cbn in H; discriminate H|].
  destruct i as [|i]; cbn in H.
  - injection H as <-; exists a; split; [reflexivity|]; cbn; lia.
  - peel H. injection H as <-. destruct (IH _ _ E) as (old & Ho & Hs).
    exists old; split; [exact Ho|]; cbn; lia.
Qed.

Lemma dict_pop_length {V} k (d d' : dict V) :
  dict_pop k d = Ok d' -> length d = S (length d').
Proof.
  revert d'; induction d as [|[k' v] d IH]; intros d' H; [cbn in H; discriminate H|].
  cbn in H; destruct (String.eqb k' k).
  - injection H as <-; reflexivity.
  - peel H; injection H as <-; cbn; rewrite (IH _ eq_refl); reflexivity.
Qed.

Lemma dict_set_length {V} k (v : V) d :
  length (dict_set k v d) = if dict_mem k d then length d else S (length d).
Proof.
  induction d as [|[k' v'] d IH]; [reflexivity|].
  unfold dict_mem in *; cbn.
  destruct (String.eqb k' k); cbn; [reflexivity|].
  rewrite IH; destruct (existsb _ d); reflexivity.
Qed.

Section GrowerFacts.

Variable within_max_dist : Z * Z -> Z * Z -> bool.

Lemma match_from_spec n i g cs t :
  match_from within_max_dist n i g cs = Some t ->
  (n <= t)%nat /\ t <> i /\
  exists c, nth_error cs (t - n) = Some c /\ nonempty c = true /\
    (check_intersects g c || check_near within_max_dist g c) = true.
Proof.
  revert n; induction cs as [|c cs IH]; intros n H; [cbn in H; discriminate H|].
  cbn [match_from] in H.
  destruct (negb (Nat.eqb n i) && (0 <? length c)%nat
            && (check_intersects g c || check_near within_max_dist g c)) eqn:Ec.
  - injection H as <-. apply andb_true_iff in Ec as [Ec Hm].
    apply andb_true_iff in Ec as [Hn Hl].
    apply negb_true_iff, Nat.eqb_neq in Hn.
    split; [lia|]; split; [exact Hn|].
    exists c; rewrite Nat.sub_diag; split; [reflexivity|]; split; [exact Hl|exact Hm].
  - destruct (IH _ H) as (Ht & Hi & c' & Hc' & Hr).
    split; [lia|]; split; [exact Hi|]. exists c'.
    replace (t - n)%nat with (S (t - S n)) by lia. split; [exact Hc'|exact Hr].
Qed.

Lemma match_to_cluster_spec st g t :
  match_to_cluster within_max_dist st g = Some t ->
  t <> idx st /\ exists c, nth_error (clusters st) t = Some c /\ nonempty c = true /\
    (check_intersects g c || check_near within_max_dist g c) = true.
Proof.
  unfold match_to_cluster; intro H; apply match_from_spec in H as (_ & Hi & c & Hc & Hr).
  rewrite Nat.sub_0_r in Hc; split; [exact Hi|]; exists c; split; [exact Hc|exact Hr].
Qed.

(** The cluster arithmetic of an accepted move. *)
Lemma update_spec st g t st' :
  update st g t = Ok st' -> t <> idx st ->
  exists c c' ct cs1,
    nth_error (clusters st) (idx st) = Some c /\ dict_pop (cur_name st) c = Ok c' /\
    list_set (idx st) c' (clusters st) = Ok cs1 /\
    nth_error (clusters st) t = Some ct /\
    list_set t (dict_set (cur_name st) g ct) cs1 = Ok (clusters st') /\
    st' = set_gain (mkG (clusters st') (cluster_lens st) (gain st) (cur_name st) t).
Proof.
  unfold update; intros H Hne; peel H.
  injection H as <-.
  apply list_get_spec in E, E2.
  destruct (list_set_spec _ _ _ _ E1) as (_ & _ & Hj).
  rewrite Hj, (proj2 (Nat.eqb_neq _ _) Hne) in E2.
  exists a, a0, a2, a1; repeat split; assumption.
Qed.

Lemma try_move_count st g st' :
  try_move within_max_dist st g = Ok st' ->
  (count_nonempty (clusters st') <= count_nonempty (clusters st))%nat.
Proof.
  unfold try_move; intro H.
  destruct (match_to_cluster within_max_dist st g) as [t|] eqn:Hm; [|injection H as <-; lia].
  peel H. destruct (measure_gain a >? gain st); [|injection H as <-; lia].
  destruct (match_to_cluster_spec _ _ _ Hm) as (Hne & c0 & Hc0 & Hnz & _).
  destruct (update_spec _ _ _ _ H Hne) as (c & c' & ct & cs1 & Hc & Hp & Hs1 & Hct & Hs2 & ->).
  rewrite Hc0 in Hct; injection Hct as <-.
  cbn [set_gain clusters].
  destruct (zsum_list_set nonempty_ind _ _ _ _ Hs1) as (o1 & Ho1 & Hz1).
  destruct (zsum_list_set nonempty_ind _ _ _ _ Hs2) as (o2 & Ho2 & Hz2).
  destruct (list_set_spec _ _ _ _ Hs1) as (_ & _ & Hj).
  rewrite Hj, (proj2 (Nat.eqb_neq _ _) Hne) in Ho2.
  assert (o2 = c0) as -> by congruence.
  assert (o1 = c) as -> by congruence.
  apply Nat2Z.inj_le; rewrite !count_nonempty_zsum.
  apply dict_pop_length in Hp.
  assert (H1 : nonempty_ind c0 = 1) by (unfold nonempty_ind; rewrite Hnz; reflexivity).
  assert (H2 : nonempty_ind (dict_set (cur_name st) g c0) = 1).
  { unfold nonempty_ind, nonempty; rewrite dict_set_length.
    destruct (dict_mem (cur_name st) c0); [unfold nonempty in Hnz; rewrite Hnz|]; reflexivity. }
  assert (H3 : nonempty_ind c = 1) by (unfold nonempty_ind, nonempty; rewrite Hp; reflexivity).
  assert (H4 : nonempty_ind c' <= 1) by (unfold nonempty_ind; destruct (nonempty c'); lia).
  lia.
Qed.

Lemma try_all_count st gs st' :
  try_all within_max_dist st gs = Ok st' ->
  (count_nonempty (clusters st') <= count_nonempty (clusters st))%nat.
Proof.
  revert st; induction gs as [|g gs IH]; intros st H; cbn in H.
  - injection H as <-; lia.
  - peel H. apply try_move_count in E. specialize (IH _ H). lia.
Qed.

Lemma grow_pass_count st cands st' :
  grow_pass within_max_dist st cands = Ok st' ->
  (count_nonempty (clusters st') <= count_nonempty (clusters st))%nat.
Proof.
  revert st; induction cands as [|[nm data] cands IH]; intros st H; cbn in H.
  - injection H as <-; lia.
  - peel H. apply try_all_count in E0. specialize (IH _ H). cbn [clusters] in E0. lia.
Qed.

End GrowerFacts.

Lemma count_nonempty_perm cs cs' : Permutation cs cs' -> count_nonempty cs = count_nonempty cs'.
Proof.
  intro Hp; apply Nat2Z.inj; rewrite !count_nonempty_zsum; apply zsum_perm, Hp.
Qed.

Section GrowerLoop.

Variable within_max_dist : Z * Z -> Z * Z -> bool.
Variable shuffle : nat -> list cluster -> list cluster.
Hypothesis shuffle_perm : forall k l, Permutation (shuffle k l) l.

Lemma grow_loop_count fuel k cands st st' :
  grow_loop within_max_dist fuel k shuffle cands st = Some (Ok st') ->
  (count_nonempty (clusters st') <= count_nonempty (clusters st))%nat.
Proof.
  revert k st; induction fuel as [|fuel IH]; intros k st H; cbn in H; [discriminate H|].
  destruct (grow_pass within_max_dist _ cands) as [st2|e] eqn:Hp; [|discriminate H].
  apply grow_pass_count in Hp; cbn [set_gain clusters] in Hp.
  rewrite (count_nonempty_perm _ _ (shuffle_perm k (clusters st))) in Hp.
  destruct (gain st2 =? _).
  - injection H as <-; exact Hp.
  - specialize (IH _ _ H); lia.
Qed.

(** C10: a trial move only targets an existing nonempty cluster other than
    the place's own; an accepted move never increases the number of
    nonempty clusters; and [grow] returns only nonempty clusters, no more
    of them than the nonempty clusters it started from. *)
Theorem grow_creates_no_cluster :
  (forall st g t, match_to_cluster within_max_dist st g = Some t ->
     t <> idx st /\ exists c, nth_error (clusters st) t = Some c /\ nonempty c = true) /\
  (forall st g st', try_move within_max_dist st g = Ok st' ->
     (count_nonempty (clusters st') <= count_nonempty (clusters st))%nat) /\
  (forall fuel cs cands out, grow within_max_dist fuel shuffle cs cands = Some (Ok out) ->
     forallb nonempty out = true /\ (length out <= count_nonempty cs)%nat).
Proof.
  split; [|split].
  - intros st g t H; destruct (match_to_cluster_spec _ _ _ _ H) as (Hi & c & Hc & Hn & _).
    split; [exact Hi|]; exists c; split; [exact Hc|exact Hn].
  - apply try_move_count.
  - intros fuel cs cands out H; unfold grow in H.
    destruct (grow_loop within_max_dist fuel 0 shuffle cands _) as [[st|e]|] eqn:Hl;
      try discriminate H.
    injection H as <-. apply grow_loop_count in Hl; cbn [clusters] in Hl.
    split; [apply forallb_filter|exact Hl].
Qed.

End GrowerLoop.

(** ** Termination of [grow] *)

Section GrowerMeasure.

Variable within_max_dist : Z * Z -> Z * Z -> bool.

















Variable shuffle : nat -> list cluster -> list cluster.
Hypothesis shuffle_perm : forall k l, Permutation (shuffle k l) l.



End GrowerMeasure.

Lemma grow_creates_no_cluster_witness :
  (forall k l, Permutation (id_shuffle k l) l) /\
  ((forall st g t, match_to_cluster (box_within 1) st g = Some t ->
     t <> idx st /\ exists c, nth_error (clusters st) t = Some c /\ nonempty c = true) /\
   (forall st g st', try_move (box_within 1) st g = Ok st' ->
     (count_nonempty (clusters st') <= count_nonempty (clusters st))%nat) /\
   (forall fuel cs cands out, grow (box_within 1) fuel id_shuffle cs cands = Some (Ok out) ->
     forallb nonempty out = true /\ (length out <= count_nonempty cs)%nat)).
Proof.
  split; [intros k l; apply Permutation_refl|].
  apply (grow_creates_no_cluster (box_within 1) id_shuffle).
  intros k l; apply Permutation_refl.
Defined.

(* ------------------------------------------------------------------ *)
(** ** Which places the grower keeps *)


















(** DBSCAN with [min_samples = 1] labels every point: each input point is
    in some cluster, and each cluster is made of input points. *)
Lemma dbscan_insert_in w p cs q :
  In q (concat (dbscan_insert w p cs)) <-> q = p \/ In q (concat cs).
Proof.
  induction cs as [|c cs IH]; cbn [dbscan_insert]; [cbn; intuition|].
  destruct (touches w p c) eqn:Et.
  - cbn [concat]; rewrite !in_app_iff; cbn [In]; rewrite !in_concat.
    split.
    + intros [[Hc|[->|[x [Hx Hq]]]]|[x [Hx Hq]]].
      * right; left; exact Hc.
      * left; reflexivity.
      * apply filter_In in Hx as [Hx _]; right; right; exists x; split; assumption.
      * apply filter_In in Hx as [Hx _]; right; right; exists x; split; assumption.
    + intros [->|[Hc|[x [Hx Hq]]]]; [left; right; left; reflexivity | left; left; exact Hc|].
      destruct (touches w p x) eqn:Ex.
      * left; right; right; exists x; split; [apply filter_In; split; assumption | exact Hq].
      * right; exists x; split; [apply filter_In; split; [exact Hx | rewrite Ex; reflexivity] | exact Hq].
  - cbn [concat]; rewrite !in_app_iff, IH; tauto.
Qed.

Lemma dbscan_insert_nonempty w p cs :
  Forall (fun c => c <> []) cs -> Forall (fun c => c <> []) (dbscan_insert w p cs).
Proof.
  induction 1 as [|c cs Hc Hcs IH]; cbn [dbscan_insert]; [repeat constructor; discriminate|].
  destruct (touches w p c).
  - constructor; [destruct c; [contradiction | discriminate]|].
    apply Forall_forall; intros x Hx; apply filter_In in Hx as [Hx _].
    rewrite Forall_forall in Hcs; exact (Hcs x Hx).
  - constructor; assumption.
Qed.

Lemma dbscan_fold_spec w coords cs :
  (forall q, In q (concat (fold_left (fun cs p => dbscan_insert w p cs) coords cs))
             <-> In q coords \/ In q (concat cs)) /\
  (Forall (fun c => c <> []) cs ->
   Forall (fun c => c <> []) (fold_left (fun cs p => dbscan_insert w p cs) coords cs)).
Proof.
  revert cs; induction coords as [|p coords IH]; intros cs; cbn [fold_left].
  - split; [intros q; cbn [In]; tauto | exact (fun H => H)].
  - destruct (IH (dbscan_insert w p cs)) as [H1 H2]; split.
    + intros q; rewrite H1, dbscan_insert_in; cbn [In]; split; intros; intuition (subst; tauto).
    + intros H; apply H2, dbscan_insert_nonempty, H.
Qed.

Lemma dbscan_cover w coords :
  (forall q, In q coords <-> exists c, In c (dbscan w coords) /\ In q c) /\
  (forall c, In c (dbscan w coords) -> c <> []).
Proof.
  destruct (dbscan_fold_spec w coords []) as [H1 H2]; unfold dbscan; split.
  - intros q; rewrite <- in_concat, H1; cbn; tauto.
  - apply Forall_forall, H2; constructor.
Qed.

(** [GeoCluster.cluster] ([DBSCAN] with [min_samples=1]) labels every
    point: each input coordinate pair lies in some returned cluster, every
    returned cluster is made of input coordinates, and none is empty. *)
Theorem dbscan_spec w coords :
  (forall q, In q coords <-> exists c, In c (dbscan w coords) /\ In q c) /\
  (forall c, In c (dbscan w coords) -> c <> []).
Proof. exact (dbscan_cover w coords). Qed.



Section GrowerCover.

Variable within_max_dist : Z * Z -> Z * Z -> bool.














Variable shuffle : nat -> list cluster -> list cluster.
Hypothesis shuffle_perm : forall k l, Permutation (shuffle k l) l.





End GrowerCover.







Lemma init_locations_index_error cands nm :
  In (nm, []) cands -> init_locations cands = Err IndexError.
Proof.
  induction cands as [|[n locs] cands IH]; intros H; [destruct H|].
  cbn; destruct locs as [|g locs]; [reflexivity|].
  destruct H as [E|H]; [discriminate E|]; rewrite (IH H); reflexivity.
Qed.

Section GrowerCall.

Variable within_max_dist : Z * Z -> Z * Z -> bool.
Variable shuffle : nat -> list cluster -> list cluster.
Hypothesis shuffle_perm : forall k l, Permutation (shuffle k l) l.


(** [GrowGeoCluster()] raises [ValueError] on an empty mapping (no
    coordinates to seed from) and [IndexError] when some place has no
    candidate ([locs[0]]). *)
Theorem grow_geo_cluster_raises fuel cands :
  (cands = [] -> grow_geo_cluster within_max_dist fuel shuffle cands = Some (Err ValueError)) /\
  (forall nm, In (nm, []) cands -> grow_geo_cluster within_max_dist fuel shuffle cands = Some (Err IndexError)).
Proof.
  split; [intros ->; reflexivity|].
  intros nm H; unfold grow_geo_cluster; rewrite (init_locations_index_error _ _ H); reflexivity.
Qed.

End GrowerCall.







Lemma grow_geo_cluster_raises_witness :
  grow_geo_cluster (box_within 1) 3 id_shuffle [] = Some (Err ValueError) /\
  grow_geo_cluster (box_within 1) 3 id_shuffle [("A"%string, [])] = Some (Err IndexError).
Proof.
  destruct (grow_geo_cluster_raises (box_within 1) id_shuffle 3 [])
    as [H1 _].
  destruct (grow_geo_cluster_raises (box_within 1) id_shuffle 3
              [("A"%string, [])]) as [_ H2].
  split; [exact (H1 eq_refl) | exact (H2 "A"%string (or_introl eq_refl))].
Defined.

(* ------------------------------------------------------------------ *)
(** ** Stable descending sort: [l.sort(key=..., reverse=True)] *)

(** Insertion after every element at least as large: equal keys keep
    their input order, as Python's stable reverse sort does.  [ge a b]
    is [key a >= key b]. *)
Fixpoint insert_desc {A} (ge : A -> A -> bool) (x : A) (l : list A) : list A :=
  match l with
  | [] => [x]
  | y :: l' => if ge y x then y :: insert_desc ge x l' else x :: l
  end.

Definition sort_desc {A} (ge : A -> A -> bool) (l : list A) : list A :=
  fold_left (fun acc x => insert_desc ge x acc) l [].

Section SortDesc.

Context {A : Type}.
Variable ge : A -> A -> bool.
Hypothesis ge_total : forall a b, ge a b = true \/ ge b a = true.
Hypothesis ge_trans : forall a b c, ge a b = true -> ge b c = true -> ge a c = true.

Lemma insert_desc_perm x l : Permutation (insert_desc ge x l) (x :: l).
Proof.
  induction l as [|y l IH]; cbn; [reflexivity|].
  destruct (ge y x); [|reflexivity].
  rewrite IH; apply perm_swap.
Qed.

Lemma sort_desc_perm l : Permutation (sort_desc ge l) l.
Proof.
  unfold sort_desc.
  assert (forall acc, Permutation (fold_left (fun acc x => insert_desc ge x acc) l acc)
                                  (rev l ++ acc)%list) as H.
  { induction l as [|x l IH]; intro acc; cbn; [reflexivity|].
    rewrite IH, insert_desc_perm, <- app_assoc; reflexivity. }
  rewrite H, app_nil_r; symmetry; apply Permutation_rev.
Qed.

Lemma insert_desc_sorted x l :
  Sorted (fun a b => ge a b = true) l -> Sorted (fun a b => ge a b = true) (insert_desc ge x l).
Proof.
  induction 1 as [|y l Hs IH Hh]; cbn; [repeat constructor|].
  destruct (ge y x) eqn:Eyx.
  - constructor; [exact IH|].
    destruct l as [|z l]; cbn; [constructor; exact Eyx|].
    inversion Hh; subst. destruct (ge z x); constructor; assumption.
  - assert (ge x y = true) by (destruct (ge_total x y); congruence).
    constructor; [constructor; assumption|constructor; assumption].
Qed.

Lemma sort_desc_sorted l : Sorted (fun a b => ge a b = true) (sort_desc ge l).
Proof.
  unfold sort_desc.
  assert (forall acc, Sorted (fun a b => ge a b = true) acc ->
          Sorted (fun a b => ge a b = true) (fold_left (fun acc x => insert_desc ge x acc) l acc))
    as H.
  { induction l as [|x l IH]; intros acc Hacc; cbn; [exact Hacc|].
    apply IH, insert_desc_sorted, Hacc. }
  apply H; constructor.
Qed.

Lemma sort_desc_head_max l h rest :
  sort_desc ge l = h :: rest -> forall y, In y l -> ge h y = true.
Proof.
  intros Hs y Hy.
  assert (Hss : StronglySorted (fun a b => ge a b = true) (h :: rest)).
  { rewrite <- Hs; apply Sorted_StronglySorted; [intros a b c; apply ge_trans|].
    apply sort_desc_sorted. }
  apply (Permutation_in _ (Permutation_sym (sort_desc_perm l))) in Hy.
  rewrite Hs in Hy; destruct Hy as [<-|Hy].
  - destruct (ge_total h h); assumption.
  - inversion Hss; subst. rewrite Forall_forall in *; auto.
Qed.

End SortDesc.

(* ------------------------------------------------------------------ *)
(** ** Location dicts and core-location selection (story_builder.py) *)

(** Values of a resolved-location dict: numbers, strings, the
    ['map_relevance'] mapping category -> probability stored by [classify],
    and any other JSON value. *)
Inductive lval :=
  | LNum (q : Q)
  | LStr (s : string)
  | LScores (m : dict Q)
  | LOther.

Notation location := (dict lval) (only parsing).

(** [d[k]] / [d.get(k)]: the value under the key, if any. *)
Fixpoint dict_get {V} (k : string) (d : dict V) : option V :=
  match d with
  | [] => None
  | (k', v) :: d' => if String.eqb k' k then Some v else dict_get k d'
  end.

(** [d.get('map_relevance', {})]. *)
Definition relevance_of (d : location) : dict Q :=
  match dict_get "map_relevance"%string d with Some (LScores m) => m | _ => [] end.

Definition has_status (status : string) (d : location) : bool :=
  dict_mem status (relevance_of d).

(** [d['map_relevance'][status]], read where [status] is a key. *)
Definition status_score (status : string) (d : location) : Q :=
  match dict_get status (relevance_of d) with Some q => q | None => 0%Q end.

Definition keys_to_keep : list string :=
  ["address"; "boundingbox"; "lat"; "lon"; "mentions"; "osm_url"; "map_relevance"; "text"]%string.

Definition str_in (k : string) (l : list string) : bool := existsb (String.eqb k) l.

(** The candidates of one status, cut at .5 and sorted by that probability,
    highest first. *)
Definition ranked_by (status : string) (vals : list location) : list location :=
  let cands := filter (has_status status) vals in
  let cands := filter (fun c => negb (Qle_bool (status_score status c) (1 # 2))) cands in
  sort_desc (fun a b => Qle_bool (status_score status b) (status_score status a)) cands.

(** [StoryBuilder._get_core]. *)
Definition get_core (locations : dict location) : location :=
  let vals := map snd locations in
  let ranked := (ranked_by "core"%string vals ++ ranked_by "relevant"%string vals)%list in
  match ranked with
  | [] => []
  | data :: _ => filter (fun kv => str_in (fst kv) keys_to_keep) data
  end.

Definition clears (status : string) (d : location) : Prop :=
  has_status status d = true /\ (1 # 2 < status_score status d)%Q.

Lemma qge_total (f : location -> Q) a b :
  Qle_bool (f b) (f a) = true \/ Qle_bool (f a) (f b) = true.
Proof.
  rewrite !Qle_bool_iff; destruct (Qlt_le_dec (f a) (f b)); [right; apply Qlt_le_weak|left]; assumption.
Qed.

Lemma qge_trans (f : location -> Q) a b c :
  Qle_bool (f b) (f a) = true -> Qle_bool (f c) (f b) = true -> Qle_bool (f c) (f a) = true.
Proof. rewrite !Qle_bool_iff; intros; eapply Qle_trans; eassumption. Qed.

Lemma clears_iff status d :
  clears status d <->
  has_status status d = true /\ negb (Qle_bool (status_score status d) (1 # 2)) = true.
Proof.
  unfold clears; rewrite negb_true_iff; split; intros [Hh Hs]; split; try exact Hh.
  - destruct (Qle_bool _ _) eqn:E; [|reflexivity].
    apply Qle_bool_iff in E; exfalso; apply (Qlt_not_le _ _ Hs E).
  - apply Qnot_le_lt; intro E; apply Qle_bool_iff in E; congruence.
Qed.

Lemma ranked_by_in status vals d :
  In d (ranked_by status vals) <-> In d vals /\ clears status d.
Proof.
  unfold ranked_by; split; intro H.
  - apply (Permutation_in _ (sort_desc_perm _ _)) in H.
    apply filter_In in H as [H Hs]; apply filter_In in H as [H Hh].
    split; [exact H|]; apply clears_iff; split; assumption.
  - destruct H as [H Hc]; apply clears_iff in Hc as [Hh Hs].
    apply (Permutation_in _ (Permutation_sym (sort_desc_perm _ _))).
    apply filter_In; split; [apply filter_In; split|]; assumption.
Qed.

Lemma ranked_by_head status vals h rest :
  ranked_by status vals = h :: rest ->
  clears status h /\
  forall y, In y vals -> has_status status y = true ->
    (status_score status y <= status_score status h)%Q.
Proof.
  intro Hr.
  assert (Hh : In h (ranked_by status vals)) by (rewrite Hr; left; reflexivity).
  apply ranked_by_in in Hh as [_ Hch]; split; [exact Hch|].
  intros y Hy Hys.
  destruct (Qlt_le_dec (1 # 2) (status_score status y)) as [Hlt|Hle].
  - assert (Hyf : In y (filter (fun c => negb (Qle_bool (status_score status c) (1 # 2)))
                       (filter (has_status status) vals))).
    { apply filter_In; split; [apply filter_In; split; assumption|].
      apply clears_iff; split; assumption. }
    unfold ranked_by in Hr.
    apply Qle_bool_iff.
    exact (sort_desc_head_max _ (qge_total (status_score status)) (qge_trans (status_score status))
             _ _ _ Hr y Hyf).
  - destruct Hch as [_ Hch]; apply Qlt_le_weak; eapply Qle_lt_trans; eassumption.
Qed.

Lemma dict_get_in {V} k (d : dict V) v : dict_get k d = Some v -> In (k, v) d.
Proof.
  induction d as [|[k' v'] d IH]; cbn; [discriminate|].
  destruct (String.eqb k' k) eqn:E; intro H.
  - apply String.eqb_eq in E; injection H as <-; subst; left; reflexivity.
  - right; apply IH, H.
Qed.

Lemma restrict_nonempty status d :
  clears status d -> filter (fun kv => str_in (fst kv) keys_to_keep) d <> [].
Proof.
  intros [Hh _]; unfold has_status, relevance_of in Hh.
  destruct (dict_get "map_relevance"%string d) as [[| | m |]|] eqn:E; try discriminate Hh.
  apply dict_get_in in E. intro Hf.
  assert (Hin : In ("map_relevance"%string, LScores m)
                   (filter (fun kv => str_in (fst kv) keys_to_keep) d)).
  { apply filter_In; split; [exact E|reflexivity]. }
  rewrite Hf in Hin; exact Hin.
Qed.

(** C5: [_get_core] returns the empty mapping exactly when no location
    clears the .5 cutoff for 'core' or for 'relevant'; otherwise it returns
    a location restricted to the output keys which, when some location
    clears the 'core' cutoff, clears it with the highest 'core' probability
    of all locations, and otherwise clears the 'relevant' cutoff with the
    highest 'relevant' probability: the first of the 'core' ranking followed
    by the 'relevant' ranking. *)
Theorem get_core_selects (locations : dict location) :
  let vals := map snd locations in
  (get_core locations = [] <->
     forall d, In d vals -> ~ clears "core" d /\ ~ clears "relevant" d) /\
  (get_core locations <> [] ->
   exists d, In d vals /\
     get_core locations = filter (fun kv => str_in (fst kv) keys_to_keep) d /\
     ((exists d', In d' vals /\ clears "core" d') ->
        clears "core" d /\
        forall d', In d' vals -> has_status "core" d' = true ->
          (status_score "core" d' <= status_score "core" d)%Q) /\
     ((forall d', In d' vals -> ~ clears "core" d') ->
        clears "relevant" d /\
        forall d', In d' vals -> has_status "relevant" d' = true ->
          (status_score "relevant" d' <= status_score "relevant" d)%Q)).
Proof.
  intro vals; unfold get_core; fold vals.
  destruct (ranked_by "core"%string vals) as [|h rest] eqn:Ec.
  - cbn [app].
    destruct (ranked_by "relevant"%string vals) as [|h' rest'] eqn:Er.
    + split; [|intro H; exfalso; apply H; reflexivity].
      split; [intros _ d Hd; split; intro Hc|reflexivity].
      * assert (Hin : In d (ranked_by "core"%string vals)) by (apply ranked_by_in; split; assumption).
        rewrite Ec in Hin; exact Hin.
      * assert (Hin : In d (ranked_by "relevant"%string vals)) by (apply ranked_by_in; split; assumption).
        rewrite Er in Hin; exact Hin.
    + destruct (ranked_by_head _ _ _ _ Er) as [Hch Hmax].
      assert (Hh : In h' (ranked_by "relevant"%string vals)) by (rewrite Er; left; reflexivity).
      apply ranked_by_in in Hh as [Hh _].
      split.
      * split; [intro H; exfalso; exact (restrict_nonempty _ _ Hch H)|].
        intro H; destruct (H h' Hh) as [_ Hn]; contradiction.
      * intros _; exists h'; split; [exact Hh|]; split; [reflexivity|]; split.
        -- intros (d' & Hd' & Hc').
           assert (Hin : In d' (ranked_by "core"%string vals)) by (apply ranked_by_in; split; assumption).
           rewrite Ec in Hin; destruct Hin.
        -- intros _; split; [exact Hch|exact Hmax].
  - destruct (ranked_by_head _ _ _ _ Ec) as [Hch Hmax].
    assert (Hh : In h (ranked_by "core"%string vals)) by (rewrite Ec; left; reflexivity).
    apply ranked_by_in in Hh as [Hh _].
    cbn [app].
    split.
    + split; [intro H; exfalso; exact (restrict_nonempty _ _ Hch H)|].
      intro H; destruct (H h Hh) as [Hn _]; contradiction.
    + intros _; exists h; split; [exact Hh|]; split; [reflexivity|]; split.
      * intros _; split; [exact Hch|exact Hmax].
      * intro H; exfalso; exact (H h Hh Hch).
Qed.

(* ------------------------------------------------------------------ *)
(** ** [Geolocate.classify]: the relevance scorer *)

(** A [requests] response: status, body text, and the body parsed as JSON
    when it is a list of score mappings ([None] when [response.json()]
    would raise). *)
Record http_response := mkResponse {
  status_code : Z;
  resp_text : string;
  resp_json : option (list (dict Q))
}.

(** Location dicts are objects shared with the caller: a heap of dicts
    addressed by reference; [locations] maps names to references. *)
Definition lheap := nat -> location.

Definition lheap_set (h : lheap) (r : nat) (d : location) : lheap :=
  fun r' => if Nat.eqb r' r then d else h r'.

(** [response.raise_for_status()] raises for 4xx and 5xx statuses. *)
Definition raises_for_status (code : Z) : bool := (400 <=? code) && (code <? 600).

(** [for scores, data in zip(response.json(), ordered_locs.values()):
       data.update({'map_relevance': scores})]. *)
Fixpoint merge_scores (scores : list (dict Q)) (refs : list nat) (h : lheap) : lheap :=
  match scores, refs with
  | s :: scores', r :: refs' =>
      merge_scores scores' refs' (lheap_set h r (dict_set "map_relevance"%string (LScores s) (h r)))
  | _, _ => h
  end.

(** [Geolocate.classify]; [server] is the scoring endpoint's answer to the
    posted list of location dicts.  Returns the outcome and the heap after
    the call. *)
Definition classify (server : list location -> http_response)
    (locations : dict nat) (h : lheap) : res (dict nat) * lheap :=
  let ordered_locs := locations in
  let response := server (map (fun kv => h (snd kv)) ordered_locs) in
  if raises_for_status (status_code response)
  then (Err (RequestException (resp_text response)), h)
  else match resp_json response with
       | None => (Err ValueError, h)
       | Some scores => (Ok ordered_locs, merge_scores scores (map snd ordered_locs) h)
       end.

Lemma merge_scores_other scores refs h r :
  ~ In r refs -> merge_scores scores refs h r = h r.
Proof.
  revert refs h; induction scores as [|s scores IH]; intros [|r' refs] h Hn; try reflexivity.
  cbn; rewrite IH by (intro; apply Hn; right; assumption).
  unfold lheap_set; destruct (Nat.eqb r r') eqn:E; [|reflexivity].
  apply Nat.eqb_eq in E; subst; exfalso; apply Hn; left; reflexivity.
Qed.

Lemma merge_scores_nth scores refs h i s r :
  NoDup refs -> nth_error scores i = Some s -> nth_error refs i = Some r ->
  merge_scores scores refs h r = dict_set "map_relevance"%string (LScores s) (h r).
Proof.
  revert refs h i; induction scores as [|s' scores IH]; intros refs h i Hnd Hs Hr.
  - destruct i; discriminate Hs.
  - destruct refs as [|r' refs]; [destruct i; discriminate Hr|].
    inversion Hnd as [|? ? Hnin Hnd']; subst.
    destruct i as [|i]; cbn in Hs, Hr |- *.
    + injection Hs as <-; injection Hr as <-.
      rewrite merge_scores_other by exact Hnin.
      unfold lheap_set; rewrite Nat.eqb_refl; reflexivity.
    + rewrite (IH _ _ i Hnd' Hs Hr).
      assert (r <> r') by (intros ->; apply Hnin; eapply nth_error_In; eassumption).
      unfold lheap_set; rewrite (proj2 (Nat.eqb_neq _ _) H); reflexivity.
Qed.

Lemma merge_scores_beyond scores refs h i r :
  NoDup refs -> (length scores <= i)%nat -> nth_error refs i = Some r ->
  merge_scores scores refs h r = h r.
Proof.
  revert refs h i; induction scores as [|s scores IH]; intros refs h i Hnd Hl Hr;
    [destruct refs; reflexivity|].
  destruct refs as [|r' refs]; [destruct i; discriminate Hr|].
  inversion Hnd as [|? ? Hnin Hnd']; subst.
  destruct i as [|i]; cbn in Hl; [lia|]. cbn in Hr |- *.
  rewrite (IH _ _ i Hnd' ltac:(lia) Hr).
  assert (r <> r') by (intros ->; apply Hnin; eapply nth_error_In; eassumption).
  unfold lheap_set; rewrite (proj2 (Nat.eqb_neq _ _) H); reflexivity.
Qed.

(** Two distinct location objects and a scorer that answers 304 with a
    JSON body. *)
Definition heap_ab : lheap :=
  fun r => match r with
           | 0%nat => [("text"%string, LStr "Paris"%string)]
           | _ => [("text"%string, LStr "Lyon"%string)]
           end.

Definition locs_ab : dict nat := [("Paris"%string, 0%nat); ("Lyon"%string, 1%nat)].

Definition scores_ab : list (dict Q) :=
  [[("core"%string, 9#10)]; [("core"%string, 1#10)]].

Definition server_304 (_ : list location) : http_response :=
  mkResponse 304 "Not Modified"%string (Some scores_ab).

Definition server_200 (_ : list location) : http_response :=
  mkResponse 200 ""%string (Some scores_ab).

Definition server_500 (_ : list location) : http_response :=
  mkResponse 500 "Internal Server Error"%string None.

(** C8 (counterexample): a non-2xx status outside 400-599 (here 304 Not
    Modified with a JSON body) raises nothing: [classify] returns the
    mapping and merges the scores into the shared location dicts. *)
Lemma classify_304_merges :
  ~ (200 <= status_code (server_304 []) < 300) /\
  fst (classify server_304 locs_ab heap_ab) = Ok locs_ab /\
  dict_get "map_relevance"%string (snd (classify server_304 locs_ab heap_ab) 0%nat)
    = Some (LScores [("core"%string, 9#10)]).
Proof. split; [cbn; lia | split; reflexivity]. Qed.

(** C8 (amended): [classify] raises a [RequestException] carrying the
    response body exactly when the status is in 400-599, and then no
    location dict is touched; a body that is not JSON also raises with the
    dicts untouched.  Otherwise (any 2xx, but also 1xx and 3xx) the mapping
    is returned and, for distinct location objects, the i-th returned
    score mapping becomes the [map_relevance] of the i-th location,
    positions beyond the shorter of the two lists and all other objects
    being left unchanged. *)
Theorem classify_spec server locs h :
  let resp := server (map (fun kv => h (snd kv)) locs) in
  (raises_for_status (status_code resp) = true ->
     classify server locs h = (Err (RequestException (resp_text resp)), h)) /\
  (raises_for_status (status_code resp) = false -> resp_json resp = None ->
     classify server locs h = (Err ValueError, h)) /\
  (raises_for_status (status_code resp) = false ->
   forall scores, resp_json resp = Some scores -> NoDup (map snd locs) ->
     fst (classify server locs h) = Ok locs /\
     (forall i s r, nth_error scores i = Some s -> nth_error (map snd locs) i = Some r ->
        snd (classify server locs h) r
          = dict_set "map_relevance"%string (LScores s) (h r)) /\
     (forall i r, (length scores <= i)%nat -> nth_error (map snd locs) i = Some r ->
        snd (classify server locs h) r = h r) /\
     (forall r, ~ In r (map snd locs) -> snd (classify server locs h) r = h r)).
Proof.
  cbv zeta; unfold classify; cbv zeta.
  split; [intros E; rewrite E; reflexivity|].
  split; [intros E J; rewrite E, J; reflexivity|].
  intros E scores J Hnd; rewrite E, J; cbn [fst snd].
  split; [reflexivity|].
  split; [intros i s r Hs Hr; exact (merge_scores_nth _ _ _ _ _ _ Hnd Hs Hr)|].
  split; [intros i r Hl Hr; exact (merge_scores_beyond _ _ _ _ _ Hnd Hl Hr)|].
  intros r Hn; exact (merge_scores_other _ _ _ _ Hn).
Qed.

Lemma classify_spec_witness :
  classify server_500 locs_ab heap_ab
    = (Err (RequestException "Internal Server Error"%string), heap_ab) /\
  snd (classify server_200 locs_ab heap_ab) 1%nat
    = dict_set "map_relevance"%string (LScores [("core"%string, 1#10)]) (heap_ab 1%nat).
Proof.
  split.
  - apply (proj1 (classify_spec server_500 locs_ab heap_ab)); reflexivity.
  - refine (proj1 (proj2 (proj2 (proj2 (classify_spec server_200 locs_ab heap_ab))
             eq_refl scores_ab eq_refl _)) 1%nat _ 1%nat eq_refl eq_refl).
    repeat constructor; cbn; intuition discriminate.
Defined.

(* ------------------------------------------------------------------ *)
(** ** The Candidate Filter ([BackQuery]) *)

(** A JSON value, as [json.loads] builds it. *)
Inductive jval :=
  | JStr (s : string)
  | JNum (q : Q)
  | JBool (b : bool)
  | JNull
  | JList (l : list jval)
  | JObj (o : list (string * jval)).

(** Geocoding dicts are objects shared with the caller: a heap of dicts
    addressed by reference, with the next free reference. *)
Record gheap := mkHeap {
  next_ref : nat;
  deref : nat -> dict jval
}.

Definition alloc (h : gheap) (d : dict jval) : nat * gheap :=
  (next_ref h,
   mkHeap (S (next_ref h)) (fun r => if Nat.eqb r (next_ref h) then d else deref h r)).

Definition heap_update (h : gheap) (r : nat) (d : dict jval) : gheap :=
  mkHeap (next_ref h) (fun r' => if Nat.eqb r' r then d else deref h r').

(** [json.dumps(locations)]: the serialized contents of the candidates. *)
Definition json_dumps (h : gheap) (locations : dict (list nat)) : dict (list (dict jval)) :=
  map (fun kv => (fst kv, map (deref h) (snd kv))) locations.

Fixpoint loads_list (h : gheap) (gs : list (dict jval)) : list nat * gheap :=
  match gs with
  | [] => ([], h)
  | g :: gs' =>
      let (r, h1) := alloc h g in
      let (rs, h2) := loads_list h1 gs' in
      (r :: rs, h2)
  end.

(** [json.loads(...)]: every candidate dict is a freshly allocated object. *)
Fixpoint json_loads (h : gheap) (data : dict (list (dict jval))) : dict (list nat) * gheap :=
  match data with
  | [] => ([], h)
  | (n, gs) :: data' =>
      let (rs, h1) := loads_list h gs in
      let (locs, h2) := json_loads h1 data' in
      ((n, rs) :: locs, h2)
  end.

Definition EXCLUDED_ADDRESS_COMPONENTS : list string :=
  ["ISO_3166-1_alpha-2"; "ISO_3166-1_alpha-3"; "_category"; "_type";
   "country_code"; "road_type"; "postcode"]%string.

(** [BackQuery._compile_address]: the string values of the components
    whose key is not excluded, joined by spaces. *)
Definition compile_address (components : dict jval) : string :=
  String.concat " " (flat_map (fun kv =>
    match snd kv with
    | JStr v => if in_dec string_dec (fst kv) EXCLUDED_ADDRESS_COMPONENTS then [] else [v]
    | _ => []
    end) components).

(** [g.get('components', {})], then [.items()]: anything but an object
    raises [AttributeError]. *)
Definition get_components (g : dict jval) : res (dict jval) :=
  match dict_get "components"%string g with
  | None => Ok []
  | Some (JObj c) => Ok c
  | Some _ => Err AttributeError
  end.

(** [g.pop('components', {})] on a dict (whose keys are unique). *)
Definition dict_discard (k : string) (d : dict jval) : dict jval :=
  filter (fun kv => negb (String.eqb (fst kv) k)) d.

Section CandidateFilter.
Local Open Scope R_scope.

(** Modelled from the spec: the analyzer of the bag-of-words model
    ([bagofwords.prep_text]): preprocessing, tokenisation and stop-word
    removal turn a text into its list of terms. *)
Variable tokenize : string -> list string.

(** Modelled from the spec: a fitted TF-IDF model, its vocabulary and one
    inverse-document-frequency weight per term. *)
Record tfidf_vectorizer := mkVectorizer {
  vocabulary : list string;
  idf_weights : list R
}.

(** Modelled from the spec: the vocabulary is every term of the fitted texts. *)
Definition vocab (docs : list string) : list string :=
  nodup string_dec (flat_map tokenize docs).

(** Modelled from the spec: the number of fitted texts containing a term. *)
Definition doc_freq (docs : list string) (w : string) : nat :=
  length (filter (fun d => if in_dec string_dec w (tokenize d) then true else false) docs).

(** Modelled from the spec: smoothed inverse document frequency,
    ln((1 + n) / (1 + df)) + 1. *)
Definition idf (docs : list string) (w : string) : R :=
  ln (INR (1 + length docs) / INR (1 + doc_freq docs w)) + 1.

(** Modelled from the spec: [prep_text.build_vectorizer] fits the model. *)
Definition build_vectorizer (docs : list string) : tfidf_vectorizer :=
  mkVectorizer (vocab docs) (map (idf docs) (vocab docs)).

Fixpoint dot (u v : list R) : R :=
  match u, v with
  | x :: u', y :: v' => x * y + dot u' v'
  | _, _ => 0
  end.

(** Modelled from the spec: the raw count of a term. *)
Definition tf (w : string) (terms : list string) : R :=
  INR (count_occ string_dec terms w).

(** Modelled from the spec: L2 normalisation, leaving a zero vector as it is. *)
Definition l2_normalize (u : list R) : list R :=
  let n := sqrt (dot u u) in
  if Req_EM_T n 0 then u else map (fun x => x / n) u.

(** Modelled from the spec: [vectorizer.transform([text])[0]]. *)
Definition transform (vz : tfidf_vectorizer) (text : string) : list R :=
  let terms := tokenize text in
  l2_normalize (map (fun p => tf (fst p) terms * snd p)
                    (combine (vocabulary vz) (idf_weights vz))).

(** [np.dot(v1.A[0], v2.A[0])] of the two transformed texts. *)
Definition vec_cosine (vz : tfidf_vectorizer) (text1 text2 : string) : R :=
  dot (transform vz text1) (transform vz text2).

(** A [BackQuery] object. *)
Record backquery := mkBackQuery {
  corpus : list string;
  threshold : R;
  exclusions : list string;
  clean : bool;
  vectorizer : option tfidf_vectorizer
}.

Definition set_vectorizer (st : backquery) (v : option tfidf_vectorizer) : backquery :=
  mkBackQuery (corpus st) (threshold st) (exclusions st) (clean st) v.

(** [BackQuery._learn_vectorizer]. *)
Definition learn_vectorizer (st : backquery) (texts : list string) : backquery :=
  set_vectorizer st (Some (build_vectorizer (corpus st ++ texts)%list)).

(** [BackQuery.cosine]: learns a vectorizer first when there is none. *)
Definition cosine (st : backquery) (text1 text2 : string) : R * backquery :=
  match vectorizer st with
  | Some vz => (vec_cosine vz text1 text2, st)
  | None =>
      let vz := build_vectorizer (corpus st ++ [text1; text2])%list in
      (vec_cosine vz text1 text2, set_vectorizer st (Some vz))
  end.

Definition gtb (x y : R) : bool := if Rlt_dec y x then true else false.
Definition geb (x y : R) : bool := if Rle_dec y x then true else false.

(** The loop of [BackQuery._match]: each candidate with its distance,
    when the distance exceeds the threshold. *)
Fixpoint qualify (st : backquery) (h : gheap) (geocodings : list nat) (text : string)
    : res (list (nat * R)) * backquery :=
  match geocodings with
  | [] => (Ok [], st)
  | g :: gs =>
      match get_components (deref h g) with
      | Err e => (Err e, st)
      | Ok comps =>
          let address := compile_address comps in
          let (distance, st1) := cosine st address text in
          let (rest, st2) := qualify st1 h gs text in
          (let* q := rest in
           Ok (if gtb distance (threshold st1) then (g, distance) :: q else q), st2)
      end
  end.

(** [BackQuery._match]: the qualified candidates, by descending distance
    ([list.sort] is stable). *)
Definition match_ (st : backquery) (h : gheap) (geocodings : list nat) (text : string)
    : res (list nat) * backquery :=
  let (q, st1) := qualify st h geocodings text in
  (let* qualified := q in
   Ok (map fst (sort_desc (fun a b => geb (snd a) (snd b)) qualified)), st1).

(** The dict comprehension of [BackQuery.__call__]. *)
Fixpoint order_all (st : backquery) (h : gheap) (locations : dict (list nat)) (text : string)
    : res (dict (list nat)) * backquery :=
  match locations with
  | [] => (Ok [], st)
  | (n, gs) :: locs =>
      let (r, st1) := match_ st h gs text in
      match r with
      | Err e => (Err e, st1)
      | Ok q =>
          let (r', st2) := order_all st1 h locs text in
          (let* rest := r' in Ok ((n, q) :: rest), st2)
      end
  end.

(** [BackQuery._scrub_unqualified]: pops every place whose list is empty. *)
Definition scrub_unqualified (locations : dict (list nat)) : dict (list nat) :=
  filter (fun kv => match snd kv with [] => false | _ => true end) locations.

(** [BackQuery._scrub_components]. *)
Definition scrub_components (h : gheap) (locations : dict (list nat)) : gheap :=
  fold_left (fun h g => heap_update h g (dict_discard "components"%string (deref h g)))
            (flat_map snd locations) h.

(** [BackQuery.__call__]: the outcome, the heap and the object after the call. *)
Definition backquery_call (st : backquery) (h : gheap) (locations : dict (list nat))
    (text : string) : res (dict (list nat)) * gheap * backquery :=
  let st1 := learn_vectorizer st [text] in
  let (locs, h1) := json_loads h (json_dumps h locations) in
  let (r, st2) := order_all st1 h1 locs text in
  match r with
  | Err e => (Err e, h1, st2)
  | Ok ordered =>
      if clean st2
      then let ordered' := scrub_unqualified ordered in
           (Ok ordered', scrub_components h1 ordered', st2)
      else (Ok ordered, h1, st2)
  end.

(** The distance [_match] computes for a candidate dict. *)
Definition address_score (vz : tfidf_vectorizer) (text : string) (g : dict jval) : R :=
  match get_components g with
  | Ok c => vec_cosine vz (compile_address c) text
  | Err _ => 0
  end.

Definition components_ok (g : dict jval) : bool :=
  match get_components g with Ok _ => true | Err _ => false end.

(** Every candidate of the input has well-formed components. *)
Definition candidates_ok (h : gheap) (locations : dict (list nat)) : bool :=
  forallb (fun kv => forallb (fun r => components_ok (deref h r)) (snd kv)) locations.


(** *** The vector space *)

Lemma dot_scale u v a b :
  dot (map (fun x => x * a) u) (map (fun x => x * b) v) = a * b * dot u v.
Proof.
  revert v; induction u as [|x u IH]; intros [|y v]; cbn; try ring.
  rewrite IH; ring.
Qed.

Lemma l2_normalize_scale u : exists c, l2_normalize u = map (fun x => x * c) u.
Proof.
  unfold l2_normalize; cbv zeta.
  destruct (Req_EM_T (sqrt (dot u u)) 0).
  - exists 1; rewrite (map_ext (fun x => x * 1) (fun x => x)) by (intros; ring).
    now rewrite map_id.
  - exists (/ sqrt (dot u u)); reflexivity.
Qed.

Lemma tf_not_in w terms : ~ In w terms -> tf w terms = 0.
Proof.
  intros Hn; unfold tf; rewrite (proj1 (count_occ_not_In string_dec terms w) Hn); reflexivity.
Qed.

Lemma dot_raw_disjoint (ps : list (string * R)) terms1 terms2 :
  (forall w, In w terms1 -> ~ In w terms2) ->
  dot (map (fun p => tf (fst p) terms1 * snd p) ps)
      (map (fun p => tf (fst p) terms2 * snd p) ps) = 0.
Proof.
  intros Hd; induction ps as [|[w i] ps IH]; cbn; [reflexivity|].
  rewrite IH; destruct (in_dec string_dec w terms1) as [Hi|Hi].
  - rewrite (tf_not_in w terms2 (Hd w Hi)); ring.
  - rewrite (tf_not_in w terms1 Hi); ring.
Qed.

(** Two texts with no term in common are at distance 0. *)
Lemma vec_cosine_disjoint vz text1 text2 :
  (forall w, In w (tokenize text1) -> ~ In w (tokenize text2)) ->
  vec_cosine vz text1 text2 = 0.
Proof.
  intros Hd; unfold vec_cosine, transform; cbv zeta.
  destruct (l2_normalize_scale (map (fun p => tf (fst p) (tokenize text1) * snd p)
              (combine (vocabulary vz) (idf_weights vz)))) as [c1 ->].
  destruct (l2_normalize_scale (map (fun p => tf (fst p) (tokenize text2) * snd p)
              (combine (vocabulary vz) (idf_weights vz)))) as [c2 ->].
  rewrite dot_scale, dot_raw_disjoint by exact Hd; ring.
Qed.

Lemma dot_self_nonneg u : 0 <= dot u u.
Proof. induction u as [|x u IH]; cbn; nra. Qed.

Lemma dot_self_ge u x : In x u -> x * x <= dot u u.
Proof.
  induction u as [|y u IH]; intros Hx; [destruct Hx|].
  pose proof (dot_self_nonneg u); cbn.
  destruct Hx as [<-|Hx]; [lra|]. specialize (IH Hx); nra.
Qed.

Lemma idf_ge_1 docs w : 1 <= idf docs w.
Proof.
  unfold idf.
  assert (Hb : 0 < INR (1 + doc_freq docs w)) by (apply lt_0_INR; lia).
  assert (Hba : INR (1 + doc_freq docs w) <= INR (1 + length docs)).
  { apply le_INR; unfold doc_freq; pose proof (filter_length_le
      (fun d => if in_dec string_dec w (tokenize d) then true else false) docs); lia. }
  set (a := INR (1 + length docs)) in *; set (b := INR (1 + doc_freq docs w)) in *.
  assert (H1 : 1 <= a / b).
  { assert (E : a / b = 1 + (a - b) / b) by (field; lra).
    rewrite E; unfold Rdiv.
    assert (0 <= (a - b) * / b) by (apply Rmult_le_pos; [lra | left; apply Rinv_0_lt_compat; lra]).
    lra. }
  destruct (Req_dec (a / b) 1) as [E|E].
  - rewrite E, ln_1; lra.
  - pose proof (ln_increasing 1 (a / b) ltac:(lra) ltac:(lra)); rewrite ln_1 in *; lra.
Qed.

Lemma combine_map_self {A B} (l : list A) (f : A -> B) :
  combine l (map f l) = map (fun x => (x, f x)) l.
Proof. induction l as [|x l IH]; cbn; congruence. Qed.

(** A text with at least one term is at distance 1 from itself in a model
    fitted on texts that include it. *)
Lemma vec_cosine_self docs text :
  In text docs -> tokenize text <> [] -> vec_cosine (build_vectorizer docs) text text = 1.
Proof.
  intros Hin Hne.
  assert (Hw : exists w, In w (tokenize text))
    by (destruct (tokenize text) as [|w ws]; [contradiction | exists w; left; reflexivity]).
  destruct Hw as [w Hw].
  unfold vec_cosine, transform, build_vectorizer; cbn [vocabulary idf_weights]; cbv zeta.
  rewrite combine_map_self, map_map; cbn [fst snd].
  set (u := map (fun x => tf x (tokenize text) * idf docs x) (vocab docs)).
  assert (Hpos : 0 < dot u u).
  { assert (Hx : In (tf w (tokenize text) * idf docs w) u).
    { apply (in_map (fun x => tf x (tokenize text) * idf docs x)).
      unfold vocab; apply nodup_In, in_flat_map; exists text; split; assumption. }
    pose proof (dot_self_ge _ _ Hx).
    assert (1 <= tf w (tokenize text)).
    { unfold tf; pose proof (proj1 (count_occ_In string_dec (tokenize text) w) Hw).
      change 1 with (INR 1); apply le_INR; lia. }
    pose proof (idf_ge_1 docs w).
    assert (1 <= tf w (tokenize text) * idf docs w) by nra. nra. }
  unfold l2_normalize; cbv zeta.
  destruct (Req_EM_T (sqrt (dot u u)) 0) as [E|Hn].
  - pose proof (sqrt_lt_R0 _ Hpos); lra.
  - change (map (fun x => x / sqrt (dot u u)) u) with (map (fun x => x * / sqrt (dot u u)) u).
    rewrite dot_scale.
    assert (Hs : sqrt (dot u u) * sqrt (dot u u) = dot u u) by (apply sqrt_sqrt; lra).
    rewrite <- Hs at 3; field; exact Hn.
Qed.

(** *** The heap *)

Lemma loads_list_spec h gs rs h1 :
  loads_list h gs = (rs, h1) ->
  map (deref h1) rs = gs /\ (next_ref h <= next_ref h1)%nat /\
  (forall p, (p < next_ref h)%nat -> deref h1 p = deref h p) /\
  (forall p, In p rs -> (next_ref h <= p < next_ref h1)%nat).
Proof.
  revert h rs h1; induction gs as [|g gs IH]; intros h rs h1 E.
  - injection E as <- <-; cbn; split; [reflexivity | split; [lia | split; [reflexivity | intros ? []]]].
  - cbn in E; destruct (loads_list _ gs) as [rs' h2] eqn:E2; injection E as <- <-.
    destruct (IH _ _ _ E2) as [Hm [Hle [Hk Hf]]]; cbn in Hle, Hk, Hf.
    split; [|split; [|split]].
    + cbn; rewrite Hm, Hk by lia; cbn; rewrite Nat.eqb_refl; reflexivity.
    + lia.
    + intros q Hq; rewrite Hk by lia; cbn.
      destruct (Nat.eqb_spec q (next_ref h)); [lia | reflexivity].
    + intros q [<-|Hq]; [lia|]; specialize (Hf q Hq); lia.
Qed.

Lemma json_loads_spec h data locs h1 :
  json_loads h data = (locs, h1) ->
  Forall2 (fun d kv => fst kv = fst d /\ map (deref h1) (snd kv) = snd d) data locs /\
  (next_ref h <= next_ref h1)%nat /\
  (forall p, (p < next_ref h)%nat -> deref h1 p = deref h p) /\
  (forall n rs p, In (n, rs) locs -> In p rs -> (next_ref h <= p < next_ref h1)%nat).
Proof.
  revert h locs h1; induction data as [|[n gs] data IH]; intros h locs h1 E.
  - injection E as <- <-; split; [constructor | split; [lia | split; [reflexivity | intros ? ? ? []]]].
  - cbn in E; destruct (loads_list h gs) as [rs hm] eqn:E1.
    destruct (json_loads hm data) as [locs' h2] eqn:E2; injection E as <- <-.
    destruct (loads_list_spec _ _ _ _ E1) as [Hm [Hle [Hk Hf]]].
    destruct (IH _ _ _ E2) as [HF [Hle' [Hk' Hf']]].
    split; [|split; [|split]].
    + constructor; [|exact HF]. split; [reflexivity|]. cbn.
      rewrite <- Hm; apply map_ext_in; intros p Hp; apply Hk'; apply Hf in Hp; lia.
    + lia.
    + intros p Hp; rewrite Hk' by lia; apply Hk; lia.
    + intros n' rs' p [E|Hi] Hp.
      * injection E as <- <-; specialize (Hf p Hp); lia.
      * specialize (Hf' _ _ _ Hi Hp); lia.
Qed.

Lemma dict_discard_idem k d : dict_discard k (dict_discard k d) = dict_discard k d.
Proof.
  unfold dict_discard; induction d as [|kv d IH]; cbn; [reflexivity|].
  destruct (negb (String.eqb (fst kv) k)) eqn:E; cbn; rewrite ?E, IH; reflexivity.
Qed.

Lemma scrub_fold_spec l h p :
  next_ref (fold_left (fun h g => heap_update h g (dict_discard "components"%string (deref h g))) l h)
    = next_ref h /\
  deref (fold_left (fun h g => heap_update h g (dict_discard "components"%string (deref h g))) l h) p
    = if in_dec Nat.eq_dec p l then dict_discard "components"%string (deref h p) else deref h p.
Proof.
  revert h; induction l as [|g l IH]; intros h; cbn [fold_left]; [split; reflexivity|].
  destruct (IH (heap_update h g (dict_discard "components"%string (deref h g)))) as [IH1 IH2].
  split; [exact IH1|]. rewrite IH2; cbn [deref heap_update].
  destruct (Nat.eqb_spec p g) as [->|Hne].
  - destruct (in_dec Nat.eq_dec g l); destruct (in_dec Nat.eq_dec g (g :: l)) as [|Hn];
      try (exfalso; apply Hn; left; reflexivity);
      first [reflexivity | apply dict_discard_idem].
  - destruct (in_dec Nat.eq_dec p l) as [Hi|Hi];
      destruct (in_dec Nat.eq_dec p (g :: l)) as [Hi'|Hi']; try reflexivity.
    + exfalso; apply Hi'; right; exact Hi.
    + exfalso; destruct Hi' as [E|Hi']; [congruence | contradiction].
Qed.

Lemma scrub_components_deref h locs p :
  deref (scrub_components h locs) p
    = if in_dec Nat.eq_dec p (flat_map snd locs)
      then dict_discard "components"%string (deref h p) else deref h p.
Proof. apply scrub_fold_spec. Qed.

(** *** The object's vectorizer *)

Lemma qualify_state st h gs text vz :
  vectorizer st = Some vz -> snd (qualify st h gs text) = st.
Proof.
  intros Hv; induction gs as [|g gs IH]; cbn [qualify]; [reflexivity|].
  destruct (get_components (deref h g)); [|reflexivity].
  unfold cosine; rewrite Hv.
  destruct (qualify st h gs text) as [r st2]; cbn in IH |- *; exact IH.
Qed.

Lemma qualify_ok st h gs text vz :
  vectorizer st = Some vz -> forallb (fun r => components_ok (deref h r)) gs = true ->
  fst (qualify st h gs text)
    = Ok (filter (fun p => gtb (snd p) (threshold st))
                 (map (fun g => (g, address_score vz text (deref h g))) gs)).
Proof.
  intros Hv; induction gs as [|g gs IH]; intros Hok; cbn [qualify]; [reflexivity|].
  cbn [forallb] in Hok; apply andb_prop in Hok as [Hg Hok].
  unfold components_ok in Hg.
  destruct (get_components (deref h g)) as [c|] eqn:Ec; [|discriminate Hg].
  unfold cosine; rewrite Hv.
  specialize (IH Hok).
  destruct (qualify st h gs text) as [r st2]; cbn [fst] in IH |- *; subst r.
  cbn [map filter snd bind]; unfold address_score; rewrite Ec.
  destruct (gtb (vec_cosine vz (compile_address c) text) (threshold st)); reflexivity.
Qed.

Lemma qualify_in st h gs text q p d :
  fst (qualify st h gs text) = Ok q -> In (p, d) q -> In p gs.
Proof.
  revert st q; induction gs as [|g gs IH]; intros st q E Hi; cbn [qualify] in E.
  - injection E as <-; destruct Hi.
  - destruct (get_components (deref h g)); [|discriminate E].
    destruct (cosine st (compile_address a) text) as [distance st1].
    destruct (qualify st1 h gs text) as [[q'|e] st2] eqn:Eq; cbn in E; [|discriminate E].
    injection E as <-.
    assert (Hr : fst (qualify st1 h gs text) = Ok q') by (rewrite Eq; reflexivity).
    destruct (gtb distance (threshold st1)).
    + destruct Hi as [E|Hi]; [injection E as <- _; left; reflexivity|].
      right; exact (IH _ _ Hr Hi).
    + right; exact (IH _ _ Hr Hi).
Qed.

Definition ranked (vz : tfidf_vectorizer) (thr : R) (h : gheap) (gs : list nat) (text : string)
    : list (nat * R) :=
  sort_desc (fun a b => geb (snd a) (snd b))
    (filter (fun p => gtb (snd p) thr) (map (fun g => (g, address_score vz text (deref h g))) gs)).

Lemma match_state st h gs text vz :
  vectorizer st = Some vz -> snd (match_ st h gs text) = st.
Proof.
  intros Hv; pose proof (qualify_state st h gs text vz Hv) as Hs.
  unfold match_; destruct (qualify st h gs text); exact Hs.
Qed.

Lemma match_ok st h gs text vz :
  vectorizer st = Some vz -> forallb (fun r => components_ok (deref h r)) gs = true ->
  fst (match_ st h gs text) = Ok (map fst (ranked vz (threshold st) h gs text)).
Proof.
  intros Hv Hok; pose proof (qualify_ok st h gs text vz Hv Hok) as Hq.
  unfold match_, ranked; destruct (qualify st h gs text); cbn in Hq |- *; rewrite Hq; reflexivity.
Qed.

Lemma match_in st h gs text q p :
  fst (match_ st h gs text) = Ok q -> In p q -> In p gs.
Proof.
  unfold match_; destruct (qualify st h gs text) as [[q'|e] st1] eqn:Eq; cbn; intros E Hp;
    [|discriminate E].
  injection E as <-.
  apply in_map_iff in Hp as [[p' d] [<- Hp]]; cbn.
  apply (Permutation_in _ (sort_desc_perm _ _)) in Hp.
  eapply (qualify_in st h gs text q'); [rewrite Eq; reflexivity | exact Hp].
Qed.

Lemma order_all_state st h locs text vz :
  vectorizer st = Some vz -> snd (order_all st h locs text) = st.
Proof.
  intros Hv; induction locs as [|[n gs] locs IH]; cbn [order_all]; [reflexivity|].
  pose proof (match_state st h gs text vz Hv) as Hm.
  destruct (match_ st h gs text) as [[q|e] st1]; cbn in Hm; subst st1; [|reflexivity].
  destruct (order_all st h locs text) as [r st2]; exact IH.
Qed.

Lemma order_all_ok st h locs text vz :
  vectorizer st = Some vz -> candidates_ok h locs = true ->
  fst (order_all st h locs text)
    = Ok (map (fun kv => (fst kv, map fst (ranked vz (threshold st) h (snd kv) text))) locs).
Proof.
  intros Hv; induction locs as [|[n gs] locs IH]; intros Hok; cbn [order_all]; [reflexivity|].
  unfold candidates_ok in Hok; cbn [forallb] in Hok; apply andb_prop in Hok as [Hg Hok].
  pose proof (match_ok st h gs text vz Hv Hg) as Hm.
  pose proof (match_state st h gs text vz Hv) as Hs.
  destruct (match_ st h gs text) as [r st1]; cbn in Hm, Hs; subst r st1.
  specialize (IH Hok).
  destruct (order_all st h locs text) as [r st2]; cbn in IH |- *; rewrite IH; reflexivity.
Qed.

Lemma order_all_in st h locs text out n rs p :
  fst (order_all st h locs text) = Ok out -> In (n, rs) out -> In p rs ->
  exists gs, In (n, gs) locs /\ In p gs.
Proof.
  revert st out; induction locs as [|[n' gs] locs IH]; intros st out E Hi Hp; cbn [order_all] in E.
  - injection E as <-; destruct Hi.
  - destruct (match_ st h gs text) as [[q|e] st1] eqn:Em; [|discriminate E].
    destruct (order_all st1 h locs text) as [[out'|e] st2] eqn:Eo; cbn in E; [|discriminate E].
    injection E as <-.
    destruct Hi as [E|Hi].
    + injection E as <- <-; exists gs; split; [left; reflexivity|].
      eapply (match_in st h gs text q); [rewrite Em; reflexivity | exact Hp].
    + destruct (IH st1 out') as [gs' [H1 H2]]; [rewrite Eo; reflexivity | exact Hi | exact Hp|].
      exists gs'; split; [right; exact H1 | exact H2].
Qed.

(** *** [BackQuery.__call__] *)

Lemma backquery_call_state st h locations text :
  snd (backquery_call st h locations text) = learn_vectorizer st [text].
Proof.
  unfold backquery_call; cbv zeta.
  destruct (json_loads h (json_dumps h locations)) as [locs1 h1].
  pose proof (order_all_state (learn_vectorizer st [text]) h1 locs1 text _ eq_refl) as Hs.
  destruct (order_all (learn_vectorizer st [text]) h1 locs1 text) as [[o|e] st2];
    cbn in Hs; subst st2; [destruct (clean _)|]; reflexivity.
Qed.

Lemma backquery_call_fresh st h locations text :
  match fst (fst (backquery_call st h locations text)) with
  | Ok out => forall n rs p, In (n, rs) out -> In p rs -> (next_ref h <= p)%nat
  | Err _ => True
  end.
Proof.
  unfold backquery_call; cbv zeta.
  destruct (json_loads h (json_dumps h locations)) as [locs1 h1] eqn:EL.
  apply json_loads_spec in EL as [_ [_ [_ Hf]]].
  destruct (order_all (learn_vectorizer st [text]) h1 locs1 text) as [[o|e] st2] eqn:EO;
    [|exact I].
  assert (Ho : fst (order_all (learn_vectorizer st [text]) h1 locs1 text) = Ok o)
    by (rewrite EO; reflexivity).
  destruct (clean st2); cbn; intros n rs p Hi Hp.
  - unfold scrub_unqualified in Hi; apply filter_In in Hi as [Hi _].
    destruct (order_all_in _ _ _ _ _ _ _ _ Ho Hi Hp) as [gs [H1 H2]].
    specialize (Hf _ _ _ H1 H2); lia.
  - destruct (order_all_in _ _ _ _ _ _ _ _ Ho Hi Hp) as [gs [H1 H2]].
    specialize (Hf _ _ _ H1 H2); lia.
Qed.

Lemma backquery_call_heap st h locations text p :
  (p < next_ref h)%nat -> deref (snd (fst (backquery_call st h locations text))) p = deref h p.
Proof.
  intros Hp; unfold backquery_call; cbv zeta.
  destruct (json_loads h (json_dumps h locations)) as [locs1 h1] eqn:EL.
  apply json_loads_spec in EL as [_ [_ [Hk Hf]]].
  destruct (order_all (learn_vectorizer st [text]) h1 locs1 text) as [[o|e] st2] eqn:EO;
    [|apply Hk; exact Hp].
  assert (Ho : fst (order_all (learn_vectorizer st [text]) h1 locs1 text) = Ok o)
    by (rewrite EO; reflexivity).
  destruct (clean st2); cbn; [|apply Hk; exact Hp].
  rewrite scrub_components_deref.
  destruct (in_dec Nat.eq_dec p (flat_map snd (scrub_unqualified o))) as [Hi|_];
    [|apply Hk; exact Hp].
  exfalso; apply in_flat_map in Hi as [[n rs] [Hin Hp']]; cbn in Hp'.
  unfold scrub_unqualified in Hin; apply filter_In in Hin as [Hin _].
  destruct (order_all_in _ _ _ _ _ _ _ _ Ho Hin Hp') as [gs [H1 H2]].
  specialize (Hf _ _ _ H1 H2); lia.
Qed.

Lemma forallb_map_comp {A B} (f : B -> bool) (g : A -> B) l :
  forallb f (map g l) = forallb (fun x => f (g x)) l.
Proof. induction l as [|x l IH]; cbn; congruence. Qed.

Lemma existsb_map_comp {A B} (f : B -> bool) (g : A -> B) l :
  existsb f (map g l) = existsb (fun x => f (g x)) l.
Proof. induction l as [|x l IH]; cbn; congruence. Qed.

Lemma filter_nil_existsb {A} (f : A -> bool) l : filter f l = [] <-> existsb f l = false.
Proof.
  induction l as [|x l IH]; cbn; [tauto|].
  destruct (f x); cbn; [split; discriminate | exact IH].
Qed.

Lemma Sorted_map_rel {A B} (Ra : A -> A -> Prop) (Rb : B -> B -> Prop) (f : A -> B) l :
  Sorted Ra l -> (forall a b, Ra a b -> Rb (f a) (f b)) -> Sorted Rb (map f l).
Proof.
  intros Hs Hf; induction Hs as [|a l Hs IH Hd]; cbn; constructor; [exact IH|].
  destruct Hd as [|b l' Hab]; cbn; constructor; apply Hf; exact Hab.
Qed.

Lemma Forall2_map_left {A A' B} (f : A -> A') (R : A' -> B -> Prop) l1 l2 :
  Forall2 R (map f l1) l2 -> Forall2 (fun a b => R (f a) b) l1 l2.
Proof.
  revert l2; induction l1 as [|a l1 IH]; intros l2 H; inversion H; subst; constructor; auto.
Qed.

Lemma Forall2_impl_in {A B} (R R' : A -> B -> Prop) l1 l2 :
  Forall2 R l1 l2 -> (forall a b, In b l2 -> R a b -> R' a b) -> Forall2 R' l1 l2.
Proof.
  intros H; induction H as [|a b l1 l2 Hab H IH]; intros Hi; constructor.
  - apply Hi; [left; reflexivity | exact Hab].
  - apply IH; intros a' b' Hb; apply Hi; right; exact Hb.
Qed.

Lemma geb_total {A} (a b : A * R) : geb (snd a) (snd b) = true \/ geb (snd b) (snd a) = true.
Proof.
  unfold geb; destruct (Rle_dec (snd b) (snd a)); destruct (Rle_dec (snd a) (snd b));
    auto; lra.
Qed.

(** With [clean] set, the result of [BackQuery.__call__] keeps, in input
    order, the places that have a candidate above the threshold; for each,
    its candidates above the threshold, by non-increasing distance, stripped
    of their components. *)
Lemma backquery_call_clean st h locations text :
  clean st = true -> candidates_ok h locations = true ->
  let score := address_score (build_vectorizer (corpus st ++ [text])%list) text in
  exists out, fst (fst (backquery_call st h locations text)) = Ok out /\
  Forall2 (fun kv kv' =>
      fst kv' = fst kv /\
      exists S, Permutation S (filter (fun p => gtb (snd p) (threshold st))
                                     (map (fun g => (g, score g)) (map (deref h) (snd kv)))) /\
        Sorted (fun a b => snd b <= snd a) S /\ S <> [] /\
        map (deref (snd (fst (backquery_call st h locations text)))) (snd kv')
          = map (fun p => dict_discard "components"%string (fst p)) S)
    (filter (fun kv => existsb (fun g => gtb (score (deref h g)) (threshold st)) (snd kv)) locations)
    out.
Proof.
  intros Hc Hok score.
  set (vz := build_vectorizer (corpus st ++ [text])%list) in score.
  destruct (json_loads h (json_dumps h locations)) as [locs1 h1] eqn:EL.
  pose proof (json_loads_spec _ _ _ _ EL) as [HF _].
  unfold json_dumps in HF; apply Forall2_map_left in HF; cbn [fst snd] in HF.
  assert (Hok1 : candidates_ok h1 locs1 = true).
  { unfold candidates_ok in *; clear EL; revert Hok.
    induction HF as [|[n gs] [n1 rs1] l l1 [_ Hm] HF IH]; intros Hok; [reflexivity|].
    cbn [forallb] in Hok |- *; apply andb_prop in Hok as [Hg Hok]; cbn [snd] in *.
    rewrite (IH Hok), andb_true_r.
    rewrite <- (forallb_map_comp components_ok (deref h1)), Hm, forallb_map_comp; exact Hg. }
  set (F := fun kv : string * list nat =>
              (fst kv, map fst (ranked vz (threshold st) h1 (snd kv) text))).
  set (O := map F locs1).
  assert (Eqn : backquery_call st h locations text
                = (Ok (scrub_unqualified O), scrub_components h1 (scrub_unqualified O),
                   learn_vectorizer st [text])).
  { unfold backquery_call; cbv zeta; rewrite EL.
    pose proof (order_all_ok (learn_vectorizer st [text]) h1 locs1 text vz eq_refl Hok1) as Ho.
    pose proof (order_all_state (learn_vectorizer st [text]) h1 locs1 text vz eq_refl) as Hs.
    destruct (order_all (learn_vectorizer st [text]) h1 locs1 text) as [r st2];
      cbn [fst snd] in Ho, Hs; subst r st2.
    cbn [clean learn_vectorizer set_vectorizer]; rewrite Hc; reflexivity. }
  rewrite Eqn; cbn [fst snd]; exists (scrub_unqualified O); split; [reflexivity|].
  set (h2 := scrub_components h1 (scrub_unqualified O)).
  (* the candidates as ranked on the fresh copies *)
  assert (HQ : Forall2 (fun kv kv' =>
      fst kv' = fst kv /\
      exists S, Permutation S (filter (fun p => gtb (snd p) (threshold st))
                                     (map (fun g => (g, score g)) (map (deref h) (snd kv)))) /\
        Sorted (fun a b => snd b <= snd a) S /\ S <> [] /\
        map (deref h1) (snd kv') = map fst S)
    (filter (fun kv => existsb (fun g => gtb (score (deref h g)) (threshold st)) (snd kv)) locations)
    (scrub_unqualified O)).
  { unfold O, scrub_unqualified; clear Eqn h2 O EL Hok Hok1.
    induction HF as [|[n gs] [n1 rs1] l l1 [Hn Hm] HF IH]; [constructor|].
    cbn [fst snd] in Hn, Hm; subst n1.
    set (L1 := filter (fun p => gtb (snd p) (threshold st))
                 (map (fun g => (g, address_score vz text (deref h1 g))) rs1)).
    set (T := sort_desc (fun a b => geb (snd a) (snd b)) L1).
    assert (HT : Permutation T L1) by apply sort_desc_perm.
    assert (Hkeep : existsb (fun g => gtb (score (deref h g)) (threshold st)) gs
                    = existsb (fun g => gtb (address_score vz text (deref h1 g)) (threshold st)) rs1).
    { rewrite <- (existsb_map_comp (fun c => gtb (score c) (threshold st)) (deref h)).
      rewrite <- Hm, existsb_map_comp; reflexivity. }
    cbn [map filter]; unfold F at 1; cbn [fst snd]; unfold ranked; fold L1; fold T.
    rewrite Hkeep.
    destruct (existsb (fun g => gtb (address_score vz text (deref h1 g)) (threshold st)) rs1)
      eqn:Eb.
    - assert (HL1 : L1 <> []).
      { intros E; unfold L1 in E; rewrite filter_map_swap in E.
        apply map_eq_nil, filter_nil_existsb in E; cbn [snd] in E; congruence. }
      assert (HT1 : T <> []) by (intros E; rewrite E in HT;
        apply HL1, Permutation_nil, HT).
      destruct (map fst T) as [|t ts] eqn:ET; [destruct T; [contradiction | discriminate ET]|].
      constructor; [|exact IH].
      split; [reflexivity|].
      exists (map (fun p => (deref h1 (fst p), snd p)) T).
      split; [|split; [|split]].
      + cbn [fst snd]; rewrite (Permutation_map _ HT); unfold L1.
        rewrite <- Hm, filter_map_swap, !map_map, filter_map_swap; cbn [fst snd].
        reflexivity.
      + apply (Sorted_map_rel _ _ _ _ (sort_desc_sorted _ geb_total L1)).
        intros a b Hab; unfold geb in Hab; cbn [snd].
        destruct (Rle_dec (snd b) (snd a)); [assumption | discriminate Hab].
      + intros E; apply map_eq_nil in E; contradiction.
      + change (snd (F (n, rs1))) with (map fst T); rewrite !map_map; reflexivity.
    - assert (HL1 : L1 = []).
      { unfold L1; rewrite filter_map_swap.
        erewrite (proj2 (filter_nil_existsb _ rs1)); [reflexivity | exact Eb]. }
      assert (HT0 : T = []) by (rewrite HL1 in HT; apply Permutation_nil, Permutation_sym, HT).
      rewrite HT0; exact IH. }
  apply (Forall2_impl_in _ _ _ _ HQ).
  intros kv kv' Hin [Hn [S [HP [HS [HS0 Hm]]]]].
  split; [exact Hn|]; exists S; split; [exact HP|split; [exact HS|split; [exact HS0|]]].
  rewrite <- (map_map fst (dict_discard "components"%string)), <- Hm, map_map.
  apply map_ext_in; intros r Hr; unfold h2; rewrite scrub_components_deref.
  destruct (in_dec Nat.eq_dec r (flat_map snd (scrub_unqualified O))) as [_|Hn'];
    [reflexivity|].
  exfalso; apply Hn'; apply in_flat_map; exists kv'; split; assumption.
Qed.

(** C9: [BackQuery.__call__] leaves every object that existed before the
    call (the caller's candidate dicts) as it was, returns only fresh
    copies, and leaves the object with a vectorizer fitted on the corpus
    plus the current text; the outcome does not depend on the vectorizer
    a previous call left behind. *)
Theorem backquery_no_side_effects st h locations text :
  let r := backquery_call st h locations text in
  (forall p, (p < next_ref h)%nat -> deref (snd (fst r)) p = deref h p) /\
  (match fst (fst r) with
   | Ok out => forall n rs p, In (n, rs) out -> In p rs -> (next_ref h <= p)%nat
   | Err _ => True
   end) /\
  snd r = set_vectorizer st (Some (build_vectorizer (corpus st ++ [text])%list)) /\
  (forall v, backquery_call (set_vectorizer st v) h locations text = r).
Proof.
  cbv zeta; split; [|split; [|split]].
  - intros p Hp; apply backquery_call_heap; exact Hp.
  - apply backquery_call_fresh.
  - apply backquery_call_state.
  - intros v; reflexivity.
Qed.

(** C4 (amended): with [clean] set (the default), and candidates whose
    components are mappings, [BackQuery.__call__] returns, in input order,
    exactly the places that keep a candidate whose distance exceeds the
    threshold, each with its candidates above the threshold sorted by
    non-increasing distance (stripped of their components).  A candidate
    sharing no term with the text has distance 0, so is discarded at any
    threshold >= 0; a candidate whose address is the text itself has
    distance 1 provided the text has at least one term, so is retained at
    any threshold < 1. *)
Theorem backquery_selects st h locations text :
  clean st = true -> candidates_ok h locations = true ->
  let score := address_score (build_vectorizer (corpus st ++ [text])%list) text in
  (exists out, fst (fst (backquery_call st h locations text)) = Ok out /\
   Forall2 (fun kv kv' =>
      fst kv' = fst kv /\
      exists S, Permutation S (filter (fun p => gtb (snd p) (threshold st))
                                     (map (fun g => (g, score g)) (map (deref h) (snd kv)))) /\
        Sorted (fun a b => snd b <= snd a) S /\ S <> [] /\
        map (deref (snd (fst (backquery_call st h locations text)))) (snd kv')
          = map (fun p => dict_discard "components"%string (fst p)) S)
    (filter (fun kv => existsb (fun g => gtb (score (deref h g)) (threshold st)) (snd kv)) locations)
    out) /\
  (forall g c, get_components g = Ok c ->
     (forall w, In w (tokenize (compile_address c)) -> ~ In w (tokenize text)) ->
     0 <= threshold st -> gtb (score g) (threshold st) = false) /\
  (forall g c, get_components g = Ok c -> compile_address c = text ->
     tokenize text <> [] -> threshold st < 1 -> gtb (score g) (threshold st) = true).
Proof.
  intros Hc Hok score; split; [|split].
  - exact (backquery_call_clean st h locations text Hc Hok).
  - intros g c Ec Hd Ht; unfold score, address_score; rewrite Ec.
    rewrite vec_cosine_disjoint by exact Hd.
    unfold gtb; destruct (Rlt_dec (threshold st) 0); [lra | reflexivity].
  - intros g c Ec Ea Hne Ht; unfold score, address_score; rewrite Ec, Ea.
    rewrite vec_cosine_self; [| apply in_or_app; right; left; reflexivity | exact Hne].
    unfold gtb; destruct (Rlt_dec (threshold st) 1); [reflexivity | lra].
Qed.

End CandidateFilter.

(** A concrete analyzer for the examples: the space-separated words. *)
Fixpoint words_from (s : string) (cur : string) : list string :=
  match s with
  | EmptyString => match cur with EmptyString => [] | _ => [cur] end
  | String c s' =>
      if Ascii.eqb c (Ascii.ascii_of_nat 32)
      then match cur with EmptyString => words_from s' EmptyString | _ => cur :: words_from s' EmptyString end
      else words_from s' (cur ++ String c EmptyString)
  end.

Definition words (s : string) : list string := words_from s EmptyString.

Definition bq_default : backquery :=
  mkBackQuery [] (1 / 10)%R EXCLUDED_ADDRESS_COMPONENTS true None.

Definition bq_unclean : backquery :=
  mkBackQuery [] (1 / 10)%R EXCLUDED_ADDRESS_COMPONENTS false None.

(** One candidate (reference 0) whose components hold no address field. *)
Definition heap_bare : gheap :=
  mkHeap 1 (fun _ => [("components"%string, JObj [])]).

Definition locs_bare : dict (list nat) := [("Springfield"%string, [0%nat])].

(** Two candidates for Paris, one in France, one in Texas. *)
Definition heap_paris : gheap :=
  mkHeap 2 (fun r => match r with
    | 0%nat => [("components"%string, JObj [("city"%string, JStr "Paris"); ("country"%string, JStr "France");
                                             ("country_code"%string, JStr "fr")])]
    | _ => [("components"%string, JObj [("city"%string, JStr "Paris"); ("state"%string, JStr "Texas")])]
    end).

Definition locs_paris : dict (list nat) := [("Paris"%string, [0%nat; 1%nat])].

Lemma bare_score_zero :
  vec_cosine words (build_vectorizer words [""%string]) ""%string ""%string = 0%R.
Proof. apply vec_cosine_disjoint; intros w Hw; vm_compute in Hw; destruct Hw. Qed.

(** C4 (counterexample): the candidate's address is the empty string,
    identical to an article text without terms; its distance is 0, so the
    default filter discards it and drops the place.  With [clean] off the
    place stays in the result with no candidate. *)
Lemma backquery_discards_identical_text :
  compile_address [] = ""%string /\
  (exists h' st', backquery_call words bq_default heap_bare locs_bare ""%string = (Ok [], h', st')) /\
  (exists h' st', backquery_call words bq_unclean heap_bare locs_bare ""%string
                    = (Ok [("Springfield"%string, [])], h', st')).
Proof.
  split; [reflexivity|split].
  - unfold backquery_call; cbn -[vec_cosine build_vectorizer gtb].
    rewrite bare_score_zero; unfold gtb.
    destruct (Rlt_dec (1 / 10) 0); [lra|]. cbn; eexists; eexists; reflexivity.
  - unfold backquery_call; cbn -[vec_cosine build_vectorizer gtb].
    rewrite bare_score_zero; unfold gtb.
    destruct (Rlt_dec (1 / 10) 0); [lra|]. cbn; eexists; eexists; reflexivity.
Qed.

Lemma backquery_selects_witness :
  exists out, fst (fst (backquery_call words bq_default heap_paris locs_paris "Floods in Paris, Texas"%string))
              = Ok out.
Proof.
  destruct (backquery_selects words bq_default heap_paris locs_paris "Floods in Paris, Texas"%string
              eq_refl eq_refl) as [[out [E _]] _].
  exists out; exact E.
Defined.

(* ------------------------------------------------------------------ *)
(** ** The Location Resolver ([Geolocate.__call__]) *)

Section Resolver.

Context {P : Type}.
Variable tokenize : string -> list string.
(** [self.geocoders]: each maps a place name to its candidate dicts, or raises. *)
Variable geocoders : list (name -> res (list (dict jval))).
(** How the grower reads a candidate dict (its ['lat'], ['lon'] and
    ['boundingbox'] in the grower's units). *)
Variable geocoding_of : dict jval -> geocoding.
Variable within_max_dist : Z * Z -> Z * Z -> bool.
Variable fuel : nat.
Variable shuffle : nat -> list cluster -> list cluster.

(** [geolocs += geocoder(name)] for each geocoder; an exception is printed
    and skipped. *)
Fixpoint run_geocoders (gcs : list (name -> res (list (dict jval)))) (n : name)
    : list (dict jval) :=
  match gcs with
  | [] => []
  | gc :: gcs' =>
      ((match gc n with Ok l => l | Err _ => [] end) ++ run_geocoders gcs' n)%list
  end.

(** [Geolocate.assemble_geocodings]; the geocoders' dicts are fresh objects. *)
Fixpoint assemble_from (h : gheap) (places : dict P) (candidates : dict (list nat))
    : dict (list nat) * gheap :=
  match places with
  | [] => (candidates, h)
  | (n, _) :: rest =>
      match run_geocoders geocoders n with
      | [] => assemble_from h rest candidates
      | geolocs =>
          let (rs, h1) := loads_list h geolocs in
          assemble_from h1 rest (dict_set n rs candidates)
      end
  end.

Definition assemble_geocodings (h : gheap) (places : dict P) : dict (list nat) * gheap :=
  assemble_from h places [].

(** [self.cluster_tool(candidates)] with the default [GrowGeoCluster()]. *)
Definition cluster_candidates (h : gheap) (candidates : dict (list nat))
    : option (res (list cluster)) :=
  grow_geo_cluster within_max_dist fuel shuffle
    (map (fun kv => (fst kv, map (fun r => geocoding_of (deref h r)) (snd kv))) candidates).

(** [Geolocate.__call__] up to its clustering step (the annotation and the
    scoring by [classify] follow it): [None] when the grower runs out of
    fuel. *)
Definition geolocate_call (bq : backquery) (h : gheap) (places : dict P) (text : string)
    : option (res (list cluster)) :=
  let (candidates, h1) := assemble_geocodings h places in
  match backquery_call tokenize bq h1 candidates text with
  | (Err e, _, _) => Some (Err e)
  | (Ok filtered, h2, _) =>
      match filtered with
      | [] => Some (Err ValueError)
      | _ => cluster_candidates h2 filtered
      end
  end.

Lemma init_locations_ok (cands : list (name * list geocoding)) :
  Forall (fun kv => snd kv <> []) cands -> exists init, init_locations cands = Ok init.
Proof.
  induction 1 as [|[n gs] cands Hg _ IH]; [exists []; reflexivity|].
  destruct gs as [|g gs]; [contradiction|].
  destruct IH as [init Hi]; exists ((n, g) :: init); cbn; rewrite Hi; reflexivity.
Qed.

Lemma filter_nil_forall {A} (f : A -> bool) l :
  (forall x, In x l -> f x = false) -> filter f l = [].
Proof.
  induction l as [|x l IH]; intros H; cbn; [reflexivity|].
  rewrite (H x (or_introl eq_refl)); apply IH; intros y Hy; apply H; right; exact Hy.
Qed.

Lemma Forall2_in_right {A B} (R : A -> B -> Prop) l1 l2 b :
  Forall2 R l1 l2 -> In b l2 -> exists a, In a l1 /\ R a b.
Proof.
  induction 1 as [|a b' l1 l2 Hab _ IH]; intros Hb; [destruct Hb|].
  destruct Hb as [<-|Hb]; [exists a; split; [left; reflexivity | exact Hab]|].
  destruct (IH Hb) as [a' [H1 H2]]; exists a'; split; [right|]; assumption.
Qed.

(** C6 (amended): with a Candidate Filter that drops places left without
    candidates ([clean], the default) and well-formed candidate dicts, the
    resolver raises the no-data [ValueError] when no place keeps a
    candidate above the threshold; when some place keeps one, it reaches
    the cluster tool with a nonempty mapping in which every place has a
    candidate, so [GrowGeoCluster]'s [locs[0]] succeeds. *)
Theorem geolocate_no_data bq h places text :
  clean bq = true ->
  let a := assemble_geocodings h places in
  candidates_ok (snd a) (fst a) = true ->
  let score := address_score tokenize (build_vectorizer tokenize (corpus bq ++ [text])%list) text in
  let usable kv := existsb (fun r => gtb (score (deref (snd a) r)) (threshold bq)) (snd kv) in
  ((forall kv, In kv (fst a) -> usable kv = false) ->
     geolocate_call bq h places text = Some (Err ValueError)) /\
  ((exists kv, In kv (fst a) /\ usable kv = true) ->
     exists h2 filtered, filtered <> [] /\
       geolocate_call bq h places text = cluster_candidates h2 filtered /\
       exists init, init_locations
         (map (fun kv => (fst kv, map (fun r => geocoding_of (deref h2 r)) (snd kv))) filtered)
         = Ok init).
Proof.
  intros Hc a Hok score usable.
  destruct (backquery_call_clean tokenize bq (snd a) (fst a) text Hc Hok) as [out [Eo HF]].
  fold score in HF.
  unfold geolocate_call; fold (assemble_geocodings h places); fold a.
  destruct a as [cands h1]; cbn [fst snd] in *.
  destruct (backquery_call tokenize bq h1 cands text) as [[r h2] st2] eqn:EB.
  cbn [fst] in Eo; subst r.
  split.
  - intros Hno.
    assert (Hf : filter (fun kv => existsb (fun g => gtb (score (deref h1 g)) (threshold bq)) (snd kv))
                   cands = []) by (apply filter_nil_forall; exact Hno).
    rewrite Hf in HF.
    inversion HF; subst; reflexivity.
  - intros [kv [Hin Hu]].
    assert (Hne : out <> []).
    { intros ->; inversion HF as [Hf|]; symmetry in Hf.
      assert (In kv (filter (fun kv => existsb (fun g => gtb (score (deref h1 g)) (threshold bq)) (snd kv)) cands))
        by (apply filter_In; split; assumption).
      rewrite Hf in H; destruct H. }
    exists h2, out; split; [exact Hne|split].
    + destruct out; [contradiction | reflexivity].
    + apply init_locations_ok, Forall_forall.
      intros [n gs] Hg; apply in_map_iff in Hg as [[n' rs] [E Hi]]; injection E as <- <-.
      destruct (Forall2_in_right _ _ _ _ HF Hi) as [kv0 [_ [_ [S [_ [_ [HS0 Hm]]]]]]].
      assert (HB : snd (fst (backquery_call tokenize bq h1 cands text)) = h2) by (rewrite EB; reflexivity).
      try rewrite HB in Hm; cbn [snd] in Hm |- *.
      intros E; apply map_eq_nil in E; subst rs; cbn in Hm.
      symmetry in Hm; apply map_eq_nil in Hm; contradiction.
Qed.

End Resolver.

(** One geocoder: a candidate for Paris with its city, and a candidate for
    Springfield without address fields. *)
Definition paris_dict : dict jval :=
  [("components"%string, JObj [("city"%string, JStr "Paris")])].

Definition bare_dict : dict jval := [("components"%string, JObj [])].

Definition demo_geocoder (n : name) : res (list (dict jval)) :=
  if String.eqb n "Paris" then Ok [paris_dict] else Ok [bare_dict].

Definition places_two : dict unit := [("Paris"%string, tt); ("Springfield"%string, tt)].
Definition places_springfield : dict unit := [("Springfield"%string, tt)].

Definition heap_empty : gheap := mkHeap 0 (fun _ => []).

Definition geocoding_origin (_ : dict jval) : geocoding := mkGeocoding 0 0 None None.

Lemma paris_score_one :
  vec_cosine words (build_vectorizer words ["Paris"%string]) "Paris"%string "Paris"%string = 1%R.
Proof. apply vec_cosine_self; [left; reflexivity | discriminate]. Qed.

Lemma empty_paris_score_zero :
  vec_cosine words (build_vectorizer words ["Paris"%string]) ""%string "Paris"%string = 0%R.
Proof. apply vec_cosine_disjoint; intros w Hw; vm_compute in Hw; destruct Hw. Qed.

Lemma empty_spring_score_zero :
  vec_cosine words (build_vectorizer words ["Springfield"%string]) ""%string "Springfield"%string = 0%R.
Proof. apply vec_cosine_disjoint; intros w Hw; vm_compute in Hw; destruct Hw. Qed.

(** C6 (counterexample): with [BackQuery(clean=False)], Paris keeps its
    candidate (distance 1 > 0.1) but Springfield's is filtered; the
    mapping passed on is not empty, so no no-data error, yet the call
    raises [IndexError] from [GrowGeoCluster]'s [locs[0]]. *)
Lemma geolocate_unclean_index_error :
  gtb (address_score words (build_vectorizer words ["Paris"%string]) "Paris"%string paris_dict)
      (threshold bq_unclean) = true /\
  geolocate_call words [demo_geocoder] geocoding_origin (fun _ _ => true) 10 id_shuffle
    bq_unclean heap_empty places_two "Paris"%string = Some (Err IndexError).
Proof.
  split.
  - unfold address_score; cbn -[vec_cosine build_vectorizer gtb].
    rewrite paris_score_one; unfold gtb; destruct (Rlt_dec (1 / 10) 1); [reflexivity | lra].
  - unfold geolocate_call; cbn -[vec_cosine build_vectorizer gtb].
    rewrite paris_score_one, empty_paris_score_zero; unfold gtb.
    destruct (Rlt_dec (1 / 10) 1); [|lra]; destruct (Rlt_dec (1 / 10) 0); [lra|].
    reflexivity.
Qed.

Lemma geolocate_no_data_witness :
  geolocate_call words [demo_geocoder] geocoding_origin (fun _ _ => true) 10 id_shuffle
    bq_default heap_empty places_springfield "Springfield"%string = Some (Err ValueError).
Proof.
  apply (proj1 (geolocate_no_data words [demo_geocoder] geocoding_origin (fun _ _ => true) 10
           id_shuffle bq_default heap_empty places_springfield "Springfield"%string eq_refl eq_refl)).
  intros kv Hkv; vm_compute in Hkv; destruct Hkv as [<-|[]].
  unfold address_score; cbn -[vec_cosine build_vectorizer gtb].
  rewrite empty_spring_score_zero; unfold gtb; destruct (Rlt_dec (1 / 10) 0); [lra | reflexivity].
Defined.

(* ------------------------------------------------------------------ *)
(** ** More of the Candidate Filter and the Location Resolver *)

Lemma Forall2_fst {A B C} (R : A * B -> A * C -> Prop) l l1 :
  Forall2 (fun a b => fst b = fst a /\ R a b) l l1 -> map fst l1 = map fst l.
Proof. induction 1 as [|a b l l1 [E _] _ IH]; cbn; [reflexivity | rewrite E, IH; reflexivity]. Qed.



Section CandidateFilterFacts.
Variable tokenize : string -> list string.

Lemma get_components_err g e : get_components g = Err e -> e = AttributeError.
Proof.
  unfold get_components; destruct (dict_get "components"%string g) as [[]|]; congruence.
Qed.

Lemma qualify_err st h gs text :
  forallb (fun r => components_ok (deref h r)) gs = false ->
  fst (qualify tokenize st h gs text) = Err AttributeError.
Proof.
  revert st; induction gs as [|g gs IH]; intros st Hb; [discriminate Hb|].
  cbn [forallb] in Hb; cbn [qualify].
  unfold components_ok in Hb.
  destruct (get_components (deref h g)) as [c|e] eqn:Ec.
  - cbn [andb] in Hb.
    destruct (cosine tokenize st (compile_address c) text) as [d st1].
    pose proof (IH st1 Hb) as IH1.
    destruct (qualify tokenize st1 h gs text) as [r st2]; cbn in IH1 |- *; rewrite IH1; reflexivity.
  - rewrite (get_components_err _ _ Ec); reflexivity.
Qed.

Lemma match_err st h gs text :
  forallb (fun r => components_ok (deref h r)) gs = false ->
  fst (match_ tokenize st h gs text) = Err AttributeError.
Proof.
  intros Hb; pose proof (qualify_err st h gs text Hb) as Hq.
  unfold match_; destruct (qualify tokenize st h gs text); cbn in Hq |- *; rewrite Hq; reflexivity.
Qed.

Lemma order_all_err st h locs text vz :
  vectorizer st = Some vz -> candidates_ok h locs = false ->
  fst (order_all tokenize st h locs text) = Err AttributeError.
Proof.
  intros Hv; induction locs as [|[n gs] locs IH]; intros Hb; [discriminate Hb|].
  unfold candidates_ok in Hb; cbn [forallb fst snd] in Hb; cbn [order_all].
  destruct (forallb (fun r => components_ok (deref h r)) gs) eqn:Eg.
  - cbn [andb] in Hb.
    pose proof (match_ok tokenize st h gs text vz Hv Eg) as Hm.
    pose proof (match_state tokenize st h gs text vz Hv) as Hs.
    destruct (match_ tokenize st h gs text) as [r st1]; cbn in Hm, Hs; subst r st1.
    specialize (IH Hb).
    destruct (order_all tokenize st h locs text) as [r st2]; cbn in IH |- *; rewrite IH; reflexivity.
  - pose proof (match_err st h gs text Eg) as Hm.
    destruct (match_ tokenize st h gs text) as [r st1]; cbn in Hm |- *; rewrite Hm; reflexivity.
Qed.

Lemma json_copy_candidates_ok h locations locs1 h1 :
  json_loads h (json_dumps h locations) = (locs1, h1) ->
  candidates_ok h1 locs1 = candidates_ok h locations.
Proof.
  intros EL; apply json_loads_spec in EL as [HF _].
  unfold json_dumps in HF; apply Forall2_map_left in HF; cbn [fst snd] in HF.
  unfold candidates_ok; induction HF as [|kv kv1 l l1 [_ Hm] _ IH]; [reflexivity|].
  cbn [forallb]; rewrite IH; f_equal.
  rewrite <- (forallb_map_comp components_ok (deref h1)), Hm, forallb_map_comp; reflexivity.
Qed.

(** [BackQuery.__call__] raises exactly when some candidate's
    ['components'] is not a mapping, and then raises [AttributeError]
    (from [.items()]), whether or not [clean] is set. *)
Theorem backquery_raises_iff st h locations text :
  (candidates_ok h locations = true ->
     exists out, fst (fst (backquery_call tokenize st h locations text)) = Ok out) /\
  (candidates_ok h locations = false ->
     fst (fst (backquery_call tokenize st h locations text)) = Err AttributeError).
Proof.
  unfold backquery_call; cbv zeta.
  destruct (json_loads h (json_dumps h locations)) as [locs1 h1] eqn:EL.
  rewrite <- (json_copy_candidates_ok _ _ _ _ EL).
  set (st1 := learn_vectorizer tokenize st [text]).
  set (vz := build_vectorizer tokenize (corpus st ++ [text])%list).
  split; intros Hb.
  - pose proof (order_all_ok tokenize st1 h1 locs1 text vz eq_refl Hb) as Ho.
    destruct (order_all tokenize st1 h1 locs1 text) as [r st2]; cbn in Ho; subst r.
    destruct (clean st2); eexists; reflexivity.
  - pose proof (order_all_err st1 h1 locs1 text vz eq_refl Hb) as Ho.
    destruct (order_all tokenize st1 h1 locs1 text) as [r st2]; cbn in Ho; subst r; reflexivity.
Qed.

(** With [clean=False], [BackQuery.__call__] keeps every place, in input
    order, even those left without a candidate; each place's list holds
    unmodified copies (['components'] included) of its own candidates whose
    distance exceeds the threshold. *)
Theorem backquery_unclean st h locations text :
  clean st = false -> candidates_ok h locations = true ->
  let vz := build_vectorizer tokenize (corpus st ++ [text])%list in
  let r := backquery_call tokenize st h locations text in
  exists out, fst (fst r) = Ok out /\ map fst out = map fst locations /\
    forall n rs p, In (n, rs) out -> In p rs ->
      exists gs, In (n, gs) locations /\ In (deref (snd (fst r)) p) (map (deref h) gs) /\
        gtb (address_score tokenize vz text (deref (snd (fst r)) p)) (threshold st) = true.
Proof.
  intros Hc Hok vz r; unfold r, backquery_call; cbv zeta.
  destruct (json_loads h (json_dumps h locations)) as [locs1 h1] eqn:EL.
  pose proof (json_copy_candidates_ok _ _ _ _ EL) as Hok1; rewrite Hok in Hok1.
  apply json_loads_spec in EL as [HF _].
  unfold json_dumps in HF; apply Forall2_map_left in HF; cbn [fst snd] in HF.
  set (st1 := learn_vectorizer tokenize st [text]).
  pose proof (order_all_ok tokenize st1 h1 locs1 text vz eq_refl Hok1) as Ho.
  pose proof (order_all_state tokenize st1 h1 locs1 text vz eq_refl) as Hs.
  destruct (order_all tokenize st1 h1 locs1 text) as [r' st2]; cbn in Ho, Hs; subst r' st2.
  change (clean st1) with (clean st); rewrite Hc; cbn [fst snd].
  eexists; split; [reflexivity|]; split.
  - rewrite map_map; cbn [fst].
    exact (Forall2_fst _ _ _ HF).
  - intros n rs p Hin Hp.
    apply in_map_iff in Hin as [kv1 [E Hkv1]]; injection E as <- <-.
    destruct (Forall2_in_right _ _ _ _ HF Hkv1) as [kv [Hkv [Hn Hm]]].
    apply in_map_iff in Hp as [[p' d] [Ep Hpd]]; cbn in Ep; subst p'.
    unfold ranked in Hpd; apply (Permutation_in _ (sort_desc_perm _ _)) in Hpd.
    apply filter_In in Hpd as [Hpd Hg]; apply in_map_iff in Hpd as [g [Eg Hg1]].
    injection Eg as <- <-; cbn [snd] in Hg.
    rewrite Hn; exists (snd kv); split; [destruct kv; exact Hkv|].
    split; [rewrite <- Hm; apply in_map; exact Hg1 | exact Hg].
Qed.

Definition set_exclusions (st : backquery) (ex : list string) : backquery :=
  mkBackQuery (corpus st) (threshold st) ex (clean st) (vectorizer st).

Lemma cosine_excl st ex a b :
  cosine tokenize (set_exclusions st ex) a b
    = (fst (cosine tokenize st a b), set_exclusions (snd (cosine tokenize st a b)) ex).
Proof. unfold cosine, set_exclusions; cbn [vectorizer]; destruct (vectorizer st) eqn:E; cbn [fst snd]; rewrite ?E; reflexivity. Qed.

Lemma qualify_excl st ex h gs text :
  qualify tokenize (set_exclusions st ex) h gs text
    = (fst (qualify tokenize st h gs text), set_exclusions (snd (qualify tokenize st h gs text)) ex).
Proof.
  revert st; induction gs as [|g gs IH]; intros st; cbn [qualify]; [reflexivity|].
  destruct (get_components (deref h g)) as [c|e]; [|reflexivity].
  rewrite cosine_excl; destruct (cosine tokenize st (compile_address c) text) as [d st1]; cbn [fst snd].
  rewrite IH; destruct (qualify tokenize st1 h gs text) as [q st2]; reflexivity.
Qed.

Lemma match_excl st ex h gs text :
  match_ tokenize (set_exclusions st ex) h gs text
    = (fst (match_ tokenize st h gs text), set_exclusions (snd (match_ tokenize st h gs text)) ex).
Proof.
  unfold match_; rewrite qualify_excl; destruct (qualify tokenize st h gs text); reflexivity.
Qed.

Lemma order_all_excl st ex h locs text :
  order_all tokenize (set_exclusions st ex) h locs text
    = (fst (order_all tokenize st h locs text), set_exclusions (snd (order_all tokenize st h locs text)) ex).
Proof.
  revert st; induction locs as [|[n gs] locs IH]; intros st; cbn [order_all]; [reflexivity|].
  rewrite match_excl; destruct (match_ tokenize st h gs text) as [[q|e] st1]; cbn [fst snd]; [|reflexivity].
  rewrite IH; destruct (order_all tokenize st1 h locs text); reflexivity.
Qed.

(** The [exclusions] attribute of a [BackQuery] has no effect:
    [_compile_address] reads the module's [EXCLUDED_ADDRESS_COMPONENTS].
    Whatever it is set to, the call returns the same result and leaves the
    same heap. *)
Theorem backquery_ignores_exclusions st ex h locations text :
  backquery_call tokenize (set_exclusions st ex) h locations text
    = (fst (backquery_call tokenize st h locations text),
       set_exclusions (snd (backquery_call tokenize st h locations text)) ex).
Proof.
  unfold backquery_call; cbv zeta.
  change (learn_vectorizer tokenize (set_exclusions st ex) [text])
    with (set_exclusions (learn_vectorizer tokenize st [text]) ex).
  destruct (json_loads h (json_dumps h locations)) as [locs1 h1].
  rewrite order_all_excl.
  destruct (order_all tokenize (learn_vectorizer tokenize st [text]) h1 locs1 text) as [[o|e] st2];
    cbn [fst snd]; [|reflexivity].
  change (clean (set_exclusions st2 ex)) with (clean st2); destruct (clean st2); reflexivity.
Qed.

End CandidateFilterFacts.


Lemma backquery_unclean_witness :
  exists out, fst (fst (backquery_call words bq_unclean heap_bare locs_bare "Springfield"%string)) = Ok out /\
    map fst out = map fst locs_bare.
Proof.
  destruct (backquery_unclean words bq_unclean heap_bare locs_bare "Springfield"%string eq_refl eq_refl)
    as [out [E [K _]]].
  exists out; split; [exact E | exact K].
Defined.

Section ResolverFacts.

Context {P : Type}.
Variable geocoders : list (name -> res (list (dict jval))).

Definition has_geocodings (n : name) : bool :=
  match run_geocoders geocoders n with [] => false | _ => true end.

Lemma dict_set_fresh {V} k (v : V) d : ~ In k (keys d) -> dict_set k v d = (d ++ [(k, v)])%list.
Proof.
  induction d as [|[k' v'] d IH]; intros Hn; cbn; [reflexivity|].
  destruct (String.eqb_spec k' k) as [->|_]; [exfalso; apply Hn; left; reflexivity|].
  rewrite IH; [reflexivity | intros Hi; apply Hn; right; exact Hi].
Qed.

Lemma assemble_from_spec h0 h (places : dict P) acc :
  NoDup (keys acc ++ keys places) -> (next_ref h0 <= next_ref h)%nat ->
  (forall n rs, In (n, rs) acc ->
     map (deref h) rs = run_geocoders geocoders n /\
     forall p, In p rs -> (next_ref h0 <= p < next_ref h)%nat) ->
  let a := assemble_from geocoders h places acc in
  keys (fst a) = (keys acc ++ filter has_geocodings (keys places))%list /\
  (forall n rs, In (n, rs) (fst a) ->
     map (deref (snd a)) rs = run_geocoders geocoders n /\
     forall p, In p rs -> (next_ref h0 <= p < next_ref (snd a))%nat) /\
  (next_ref h <= next_ref (snd a))%nat /\
  (forall p, (p < next_ref h)%nat -> deref (snd a) p = deref h p).
Proof.
  revert h acc; induction places as [|[n x] rest IH]; intros h acc Hnd H0 Hinv a.
  - unfold a; cbn; rewrite app_nil_r; split; [reflexivity|].
    split; [exact Hinv | split; [lia | reflexivity]].
  - unfold a; cbn [assemble_from keys map fst filter] in *.
    unfold has_geocodings at 1.
    destruct (run_geocoders geocoders n) as [|d ds] eqn:Er.
    + apply IH; [exact (NoDup_remove_1 _ _ _ Hnd) | exact H0 | exact Hinv].
    + destruct (loads_list h (d :: ds)) as [rs h1] eqn:El.
      destruct (loads_list_spec _ _ _ _ El) as [Hm [Hle [Hk Hf]]].
      pose proof (NoDup_remove_2 _ _ _ Hnd) as Hn.
      rewrite dict_set_fresh by (intros Hi; apply Hn, in_or_app; left; exact Hi).
      edestruct (IH h1 (acc ++ [(n, rs)])%list) as [K [V [L U]]].
      * unfold keys; rewrite map_app, <- app_assoc; exact Hnd.
      * lia.
      * intros n' rs' Hi; apply in_app_iff in Hi as [Hi|[E|[]]].
        -- destruct (Hinv _ _ Hi) as [Hm' Hp'].
           split; [|intros p Hp; specialize (Hp' p Hp); lia].
           rewrite <- Hm'; apply map_ext_in; intros p Hp; apply Hk; specialize (Hp' p Hp); lia.
        -- injection E as <- <-; split; [rewrite Hm; symmetry; exact Er|].
           intros p Hp; specialize (Hf p Hp); lia.
      * split; [|split; [exact V | split; [lia | intros p Hp; rewrite U by lia; apply Hk; exact Hp]]].
        rewrite K; unfold keys; rewrite map_app, <- app_assoc; reflexivity.
Qed.

(** [Geolocate.assemble_geocodings] keeps, in input order, exactly the
    places for which the geocoders returned something; each keeps every
    dict the geocoders returned for it, in geocoder order, as fresh
    objects, and no existing object is modified. *)
Theorem assemble_geocodings_spec h (places : dict P) :
  NoDup (keys places) ->
  let a := assemble_geocodings geocoders h places in
  keys (fst a) = filter has_geocodings (keys places) /\
  (forall n rs, In (n, rs) (fst a) ->
     map (deref (snd a)) rs = run_geocoders geocoders n /\
     forall p, In p rs -> (next_ref h <= p < next_ref (snd a))%nat) /\
  (forall p, (p < next_ref h)%nat -> deref (snd a) p = deref h p).
Proof.
  intros Hnd a.
  destruct (assemble_from_spec h h places [] Hnd (le_n _)) as [K [V [_ U]]];
    [intros ? ? []|].
  split; [exact K | split; [exact V | exact U]].
Qed.

Lemma assemble_from_none h (places : dict P) acc :
  (forall n, In n (keys places) -> run_geocoders geocoders n = []) ->
  assemble_from geocoders h places acc = (acc, h).
Proof.
  revert acc; induction places as [|[n x] rest IH]; intros acc Hn; [reflexivity|].
  cbn; rewrite (Hn n (or_introl eq_refl)).
  apply IH; intros n' Hi; apply Hn; right; exact Hi.
Qed.

Variable tokenize : string -> list string.
Variable geocoding_of : dict jval -> geocoding.
Variable within_max_dist : Z * Z -> Z * Z -> bool.
Variable fuel : nat.
Variable shuffle : nat -> list cluster -> list cluster.

(** When the geocoders find nothing for any place (no places, or every
    geocoder raising or returning an empty list), [Geolocate.__call__]
    raises [ValueError('No candidate coordinates found.')], whatever the
    [BackQuery]'s settings. *)
Theorem geolocate_no_geocodings bq h (places : dict P) text :
  (forall n, In n (keys places) -> run_geocoders geocoders n = []) ->
  geolocate_call tokenize geocoders geocoding_of within_max_dist fuel shuffle bq h places text
    = Some (Err ValueError).
Proof.
  intros Hn; unfold geolocate_call, assemble_geocodings; rewrite assemble_from_none by exact Hn.
  unfold backquery_call; cbn.
  change (clean (learn_vectorizer tokenize bq [text])) with (clean bq).
  destruct (clean bq); reflexivity.
Qed.

End ResolverFacts.

Lemma assemble_geocodings_spec_witness :
  keys (fst (assemble_geocodings [demo_geocoder] heap_empty places_two))
    = filter (has_geocodings [demo_geocoder]) (keys places_two).
Proof.
  apply (assemble_geocodings_spec [demo_geocoder] heap_empty places_two).
  repeat constructor; cbn; intuition discriminate.
Defined.

Lemma geolocate_no_geocodings_witness :
  geolocate_call words [fun _ => Err (RequestException "timeout")] geocoding_origin (fun _ _ => true) 10
    id_shuffle bq_default heap_empty places_two "Paris"%string = Some (Err ValueError).
Proof.
  apply geolocate_no_geocodings; intros n _; reflexivity.
Defined.

(* ------------------------------------------------------------------ *)
(** ** [find_mentions] *)

(** Python's [p in s] on strings: [p] occurs in [s]. *)
Fixpoint str_contains (p s : string) : bool :=
  if String.prefix p s then true
  else match s with EmptyString => false | String _ s' => str_contains p s' end.

(** Python's [l[:stop]]: a negative [stop] counts from the end. *)
Definition py_slice_upto {A} (l : list A) (stop : Z) : list A :=
  firstn (Z.to_nat (if stop <? 0 then Z.of_nat (length l) + stop else stop)) l.

Definition MAX_MENTIONS : Z := 6.

Section Mentions.

(** [nltk.sent_tokenize]: any splitter of a text into sentences. *)
Variable sent_tokenize : string -> list string.

(** [find_mentions(place, text, limit)]. *)
Definition find_mentions (place text : string) (limit : Z) : list string :=
  let sentences := sent_tokenize text in
  let mentions := filter (fun s => str_contains place s) sentences in
  py_slice_upto mentions limit.

End Mentions.

Lemma prefix_app p s : String.prefix p s = true <-> exists b, s = (p ++ b)%string.
Proof.
  revert s; induction p as [|a p IH]; intros s; cbn.
  - split; [intros _; exists s; reflexivity | destruct s; reflexivity].
  - destruct s as [|c s]; [split; [discriminate | intros [b E]; discriminate E]|].
    cbn; destruct (Ascii.ascii_dec a c) as [<-|Hne].
    + rewrite IH; split; intros [b E]; exists b; [rewrite E; reflexivity | injection E as E; exact E].
    + split; [discriminate | intros [b E]; injection E as E _; congruence].
Qed.

Lemma str_contains_iff p s : str_contains p s = true <-> exists a b, s = (a ++ p ++ b)%string.
Proof.
  induction s as [|c s IH]; cbn [str_contains].
  - destruct (String.prefix p EmptyString) eqn:E.
    + apply prefix_app in E as [b E]; split; [intros _; exists EmptyString, b; exact E | reflexivity].
    + split; [discriminate|]. intros [a [b Eab]].
      destruct a as [|x a]; [|discriminate Eab].
      cbn in Eab; rewrite (proj2 (prefix_app p EmptyString) (ex_intro _ b Eab)) in E; discriminate E.
  - destruct (String.prefix p (String c s)) eqn:E.
    + apply prefix_app in E as [b E]; split; [intros _; exists EmptyString, b; exact E | reflexivity].
    + rewrite IH; split.
      * intros [a [b Eab]]; exists (String c a), b; rewrite Eab; reflexivity.
      * intros [a [b Eab]]; destruct a as [|x a].
        -- cbn in Eab; rewrite (proj2 (prefix_app p (String c s)) (ex_intro _ b Eab)) in E; discriminate E.
        -- injection Eab as _ Eab; exists a, b; exact Eab.
Qed.

Lemma in_firstn {A} n (l : list A) x : In x (firstn n l) -> In x l.
Proof. intros H; rewrite <- (firstn_skipn n l); apply in_or_app; left; exact H. Qed.

(** With a non-negative [limit], [find_mentions] returns the first
    [limit] sentences of the text that contain the place, in text order:
    each is a sentence of the text containing [place] as a substring,
    and the list is cut only when more than [limit] sentences mention it. *)
Theorem find_mentions_spec sent_tokenize place text limit :
  0 <= limit ->
  let r := find_mentions sent_tokenize place text limit in
  (Z.of_nat (length r) <= limit) /\
  (forall m, In m r -> In m (sent_tokenize text) /\ exists a b, m = (a ++ place ++ b)%string) /\
  exists rest, filter (fun s => str_contains place s) (sent_tokenize text) = (r ++ rest)%list /\
    (rest <> [] -> Z.of_nat (length r) = limit).
Proof.
  intros Hl r; unfold r, find_mentions, py_slice_upto.
  destruct (Z.ltb_spec limit 0) as [|_]; [lia|].
  set (ms := filter (fun s => str_contains place s) (sent_tokenize text)).
  split; [|split].
  - rewrite length_firstn; lia.
  - intros m Hm; apply in_firstn, filter_In in Hm as [Hm Hc]; split; [exact Hm|].
    apply str_contains_iff; exact Hc.
  - exists (skipn (Z.to_nat limit) ms); split; [symmetry; apply firstn_skipn|].
    intros Hne; rewrite length_firstn.
    assert (Z.to_nat limit < length ms)%nat.
    { destruct (Nat.lt_ge_cases (Z.to_nat limit) (length ms)) as [H|H]; [exact H|].
      exfalso; apply Hne, skipn_all2; exact H. }
    lia.
Qed.


(* ------------------------------------------------------------------ *)
(** ** [StoryBuilder._abort_for_weather] *)

(** A Python call that returns, or raises the named exception class. *)
Inductive outcome (A : Type) :=
  | Returns (a : A)
  | Raises (exc : string).
Arguments Returns {A} a.
Arguments Raises {A} exc.

(** Python truthiness of a JSON value. *)
Definition py_truthy (v : jval) : bool :=
  match v with
  | JStr s => negb (String.eqb s EmptyString)
  | JNum q => negb (Qeq_bool q 0)
  | JBool b => b
  | JNull => false
  | JList l => match l with [] => false | _ => true end
  | JObj o => match o with [] => false | _ => true end
  end.

(** [v > cut] for a float [cut]: numbers and booleans compare, anything
    else raises [TypeError]. *)
Definition py_gt_float (v : jval) (cut : Q) : outcome bool :=
  match v with
  | JNum q => Returns (negb (Qle_bool q cut))
  | JBool b => Returns (negb (Qle_bool (if b then 1 else 0) cut))
  | _ => Raises "TypeError"
  end.

(** [story.record.get('themes', {}).pop('weather', 0)]: the popped value
    and the record, whose themes object is changed in place. A list's
    [pop] takes one argument ([TypeError]); other values have no [pop]. *)
Definition themes_pop_weather (record : dict jval) : outcome (jval * dict jval) :=
  match dict_get "themes" record with
  | None => Returns (JNum 0, record)
  | Some (JObj o) =>
      match dict_get "weather" o with
      | None => Returns (JNum 0, record)
      | Some p => Returns (p, dict_set "themes" (JObj (dict_discard "weather" o)) record)
      end
  | Some (JList _) => Raises "TypeError"
  | Some _ => Raises "AttributeError"
  end.

(** [StoryBuilder._abort_for_weather]: the outcome and the story record
    after the call. *)
Definition abort_for_weather (reject_for_class : bool) (weather_cut : Q) (record : dict jval)
    : outcome bool * dict jval :=
  if negb reject_for_class then (Returns false, record) else
  match themes_pop_weather record with
  | Raises e => (Raises e, record)
  | Returns (weather_prob, r1) =>
      let r2 := if py_truthy weather_prob then dict_set "weather" weather_prob r1 else r1 in
      (py_gt_float weather_prob weather_cut, r2)
  end.

Lemma dict_get_set_same {V} k (v : V) d : dict_get k (dict_set k v d) = Some v.
Proof.
  induction d as [|[k' v'] d IH]; cbn; [rewrite String.eqb_refl; reflexivity|].
  destruct (String.eqb_spec k' k) as [->|Hne]; cbn; [rewrite String.eqb_refl; reflexivity|].
  destruct (String.eqb_spec k' k); [contradiction | exact IH].
Qed.

Lemma dict_get_set_other {V} k k' (v : V) d : k <> k' -> dict_get k' (dict_set k v d) = dict_get k' d.
Proof.
  intros Hk; induction d as [|[k0 v0] d IH]; cbn.
  - destruct (String.eqb_spec k k'); [contradiction | reflexivity].
  - destruct (String.eqb_spec k0 k) as [->|Hne]; cbn.
    + destruct (String.eqb_spec k k'); [contradiction | reflexivity].
    + destruct (String.eqb_spec k0 k'); [reflexivity | exact IH].
Qed.

Lemma dict_get_discard k d : dict_get k (dict_discard k d) = None.
Proof.
  unfold dict_discard; induction d as [|[k' v'] d IH]; cbn; [reflexivity|].
  destruct (String.eqb_spec k' k) as [->|Hne]; cbn; [exact IH|].
  destruct (String.eqb_spec k' k); [contradiction | exact IH].
Qed.

(** The weather signal is consumed by the first check: when the record's
    themes are absent or an object, a second [_abort_for_weather] on the
    resulting record finds no weather, leaves the record as it is, and
    answers as for a probability of 0 (so never aborts for a
    non-negative cut). *)
Theorem abort_for_weather_twice reject cut record :
  (dict_get "themes" record = None \/ exists o, dict_get "themes" record = Some (JObj o)) ->
  let r1 := snd (abort_for_weather reject cut record) in
  abort_for_weather reject cut r1
    = (if reject then Returns (negb (Qle_bool 0 cut)) else Returns false, r1).
Proof.
  intros Ht r1; unfold r1; clear r1.
  destruct reject; [|reflexivity].
  assert (Hdone : forall r, (dict_get "themes" r = None \/
                  exists o', dict_get "themes" r = Some (JObj o') /\ dict_get "weather" o' = None) ->
                  abort_for_weather true cut r = (Returns (negb (Qle_bool 0 cut)), r)).
  { intros r [E|[o' [E Ew]]]; unfold abort_for_weather, themes_pop_weather; cbn [negb];
      rewrite E; [reflexivity | rewrite Ew; reflexivity]. }
  apply Hdone.
  unfold abort_for_weather, themes_pop_weather; cbn [negb].
  destruct Ht as [Ht|[o Ht]]; rewrite Ht; [left; exact Ht|].
  destruct (dict_get "weather" o) as [p|] eqn:Ew; [|right; exists o; split; assumption].
  right; exists (dict_discard "weather" o); split; [|apply dict_get_discard].
  destruct (py_truthy p); cbn [snd]; [rewrite dict_get_set_other by discriminate|]; apply dict_get_set_same.
Qed.

(** A weather value that is neither a number nor a boolean makes
    [_abort_for_weather] raise [TypeError] at the comparison, after the
    record was changed: the weather entry is gone from its themes, and
    is recorded under ['weather'] when truthy. *)
Theorem abort_for_weather_type_error cut record o p :
  dict_get "themes" record = Some (JObj o) -> dict_get "weather" o = Some p ->
  (forall q, p <> JNum q) -> (forall b, p <> JBool b) ->
  let r := abort_for_weather true cut record in
  fst r = Raises "TypeError" /\
  dict_get "themes" (snd r) = Some (JObj (dict_discard "weather" o)) /\
  dict_get "weather" (snd r) = if py_truthy p then Some p else dict_get "weather" record.
Proof.
  intros Ht Ew Hq Hb r; unfold r, abort_for_weather, themes_pop_weather; cbn [negb].
  rewrite Ht, Ew.
  assert (Hc : py_gt_float p cut = Raises "TypeError").
  { destruct p; try reflexivity; [exfalso; eapply Hq; reflexivity | exfalso; eapply Hb; reflexivity]. }
  rewrite Hc; split; [reflexivity|].
  destruct (py_truthy p); cbn [snd].
  - split; [rewrite dict_get_set_other by discriminate|]; apply dict_get_set_same.
  - split; [apply dict_get_set_same|].
    apply dict_get_set_other; discriminate.
Qed.

Definition weather_record : dict jval :=
  [("url"%string, JStr "u"); ("themes"%string, JObj [("weather"%string, JNum (3 # 10)); ("flood"%string, JNum (1 # 2))])].

Lemma abort_for_weather_twice_witness :
  abort_for_weather true (15 # 100) (snd (abort_for_weather true (15 # 100) weather_record))
    = (Returns false, snd (abort_for_weather true (15 # 100) weather_record)).
Proof.
  apply (abort_for_weather_twice true (15 # 100) weather_record).
  right; eexists; reflexivity.
Defined.

Lemma abort_for_weather_type_error_witness :
  fst (abort_for_weather true (15 # 100)
         [("themes"%string, JObj [("weather"%string, JStr "high")])]) = Raises "TypeError".
Proof.
  apply (abort_for_weather_type_error (15 # 100) _ [("weather"%string, JStr "high")] (JStr "high"));
    [reflexivity | reflexivity | discriminate | discriminate].
Defined.

Lemma find_mentions_spec_witness :
  (Z.of_nat (length (find_mentions (fun t => [t]) "Paris" "Paris is busy" MAX_MENTIONS)) <= MAX_MENTIONS).
Proof. apply (find_mentions_spec (fun t => [t]) "Paris" "Paris is busy" MAX_MENTIONS); cbv; discriminate. Defined.

